(** * logging: leveled logging with handlers and formatters

    A shallow embedding of [logging.go] and the properties of its
    logger, formatter and handlers.

    - Levels and colours are Go [int]s, modelled as [Z]; the two lookup
      tables are finite maps whose lookup yields Go's zero value when the
      key is absent.
    - A logger does not know which handler it owns: its methods are
      modelled by the sequence of calls they make on [l.Handler], together
      with the way the method ends (return, [os.Exit], [panic]).
    - Handlers are modelled by the operations they perform on their sinks
      (an [io.Writer], a [syslog.Writer]).
    - [MultiHandler.Handle] starts goroutines and waits on a
      [sync.WaitGroup]; it is modelled by a small machine with a pool of
      goroutines, wait-group counters and an interleaving step relation. *)

From Stdlib Require Import Ascii.
From stdpp Require Import base numbers list strings gmap relations pretty.

Local Open Scope string_scope.
Local Open Scope Z_scope.

(** ** Strings *)

(** Go's ["\n"] and ["\033"]. *)
Definition LF : string := String "010"%char "".
Definition ESC : string := String "027"%char "".

(** [strings.HasSuffix]: [len(s) >= len(suffix) && s[len(s)-len(suffix):] == suffix]. *)
Definition strings_HasSuffix (s suffix : string) : bool :=
  (String.length suffix <=? String.length s)%nat
  && String.eqb
       (String.substring (String.length s - String.length suffix)
                         (String.length suffix) s)
       suffix.

(** The slice expression [s[:n]]; every use below is on a string of at
    least [n] bytes (see [Time_String_length]). *)
Definition slice_to (n : nat) (s : string) : string := String.substring 0 n s.

Fixpoint repeat_string (n : nat) (c : string) : string :=
  match n with
  | O => ""
  | S n' => c +:+ repeat_string n' c
  end.

(** ** Levels and colours *)

Abbreviation Color := Z (only parsing).
Abbreviation Level := Z (only parsing).

Definition BLACK : Color := 0 + 30.
Definition RED : Color := 1 + 30.
Definition GREEN : Color := 2 + 30.
Definition YELLOW : Color := 3 + 30.
Definition BLUE : Color := 4 + 30.
Definition MAGENTA : Color := 5 + 30.
Definition CYAN : Color := 6 + 30.
Definition WHITE : Color := 7 + 30.

Definition CRITICAL : Level := 0.
Definition ERROR : Level := 1.
Definition WARNING : Level := 2.
Definition NOTICE : Level := 3.
Definition INFO : Level := 4.
Definition DEBUG : Level := 5.

Definition LevelNames : gmap Z string :=
  list_to_map
    [ (CRITICAL, "CRITICAL"); (ERROR, "ERROR"); (WARNING, "WARNING");
      (NOTICE, "NOTICE"); (INFO, "INFO"); (DEBUG, "DEBUG") ].

Definition LevelColors : gmap Z Z :=
  list_to_map
    [ (CRITICAL, MAGENTA); (ERROR, RED); (WARNING, YELLOW);
      (NOTICE, GREEN); (INFO, WHITE); (DEBUG, CYAN) ].

(** Go's [m[k]] on a map: the zero value of the element type when [k] is
    absent. *)
Definition LevelNames_at (l : Level) : string := default "" (LevelNames !! l).
Definition LevelColors_at (l : Level) : Color := default 0 (LevelColors !! l).

(** The six named levels. *)
Definition named_level (l : Level) : bool := (CRITICAL <=? l) && (l <=? DEBUG).

Definition DefaultLevel : Level := INFO.

(** ** Time *)

(** A [time.Time] as [String] reads it: the civil date and clock fields,
    and [Time_rest], the text that [Time.String] prints after the seconds
    (fractional seconds, zone offset, zone abbreviation and monotonic
    clock reading). *)
Record Time := {
  Time_year : Z;
  Time_month : Z;
  Time_day : Z;
  Time_hour : Z;
  Time_minute : Z;
  Time_second : Z;
  Time_rest : string
}.

(** [time.appendInt]: the decimal digits of [x], after a minus sign when
    [x] is negative, zero-padded to at least [width] digits. *)
Definition appendInt (x : Z) (width : nat) : string :=
  let digits := pretty (Z.abs x) in
  (if x <? 0 then "-" else "")
  +:+ repeat_string (width - String.length digits) "0" +:+ digits.

(** [Time.String], layout ["2006-01-02 15:04:05.999999999 -0700 MST"]. *)
Definition Time_String (t : Time) : string :=
  appendInt (Time_year t) 4 +:+ "-" +:+ appendInt (Time_month t) 2 +:+ "-"
  +:+ appendInt (Time_day t) 2 +:+ " " +:+ appendInt (Time_hour t) 2 +:+ ":"
  +:+ appendInt (Time_minute t) 2 +:+ ":" +:+ appendInt (Time_second t) 2
  +:+ Time_rest t.

(** A calendar time whose year is written with four digits. *)
Definition Time_wf (t : Time) : bool :=
  (0 <=? Time_year t) && (Time_year t <=? 9999)
  && (1 <=? Time_month t) && (Time_month t <=? 12)
  && (1 <=? Time_day t) && (Time_day t <=? 31)
  && (0 <=? Time_hour t) && (Time_hour t <=? 23)
  && (0 <=? Time_minute t) && (Time_minute t <=? 59)
  && (0 <=? Time_second t) && (Time_second t <=? 59).

(** ** [fmt.Sprintf] on the package's own format literals *)

(** The operands the package passes together with a format literal of its
    own: strings and integers. *)
Inductive Operand :=
  | OString (s : string)
  | OInt (n : Z).

Definition Operand_type (op : Operand) : string :=
  match op with OString _ => "string" | OInt _ => "int" end.

Definition Operand_value (op : Operand) : string :=
  match op with OString s => s | OInt n => pretty n end.

(** One operand under one verb. The fragment of [fmt] modelled here has
    the verbs [s], [d] and [v], the flag [-] and a decimal width; a verb
    that does not fit the operand, a missing operand and operands left
    over are rendered the way [fmt] reports them. *)
Definition fmt_verb (verb : ascii) (op : Operand) : string :=
  match op with
  | OString s =>
      if (Ascii.eqb verb "s" || Ascii.eqb verb "v")%char then s
      else "%!" +:+ String verb "" +:+ "(string=" +:+ s +:+ ")"
  | OInt n =>
      if (Ascii.eqb verb "d" || Ascii.eqb verb "v")%char then pretty n
      else "%!" +:+ String verb "" +:+ "(int=" +:+ pretty n +:+ ")"
  end.

(** Padding to a width: on the right under the [-] flag, on the left
    otherwise. [fmt] counts runes; the operands printed with a width here
    are the ASCII level names. *)
Definition fmt_pad (minus : bool) (width : nat) (s : string) : string :=
  let padding := repeat_string (width - String.length s) " " in
  if minus then s +:+ padding else padding +:+ s.

Definition is_digit (c : ascii) : bool :=
  (48 <=? nat_of_ascii c)%nat && (nat_of_ascii c <=? 57)%nat.

(** Where the scan of the format stands: in plain text, or after a [%]
    with the flag and width read so far. *)
Inductive Directive :=
  | InText
  | InVerb (minus : bool) (width : nat).

Fixpoint fmt_extra (ops : list Operand) : string :=
  match ops with
  | [] => ""
  | [op] => Operand_type op +:+ "=" +:+ Operand_value op
  | op :: ops' => Operand_type op +:+ "=" +:+ Operand_value op +:+ ", " +:+ fmt_extra ops'
  end.

Fixpoint doPrintf (d : Directive) (format : string) (ops : list Operand) : string :=
  match format with
  | "" =>
      match d with
      | InVerb _ _ => "%!(NOVERB)"
      | InText => ""
      end
      +:+ match ops with
          | [] => ""
          | _ => "%!(EXTRA " +:+ fmt_extra ops +:+ ")"
          end
  | String c rest =>
      match d with
      | InText =>
          if Ascii.eqb c "%" then doPrintf (InVerb false 0) rest ops
          else String c (doPrintf InText rest ops)
      | InVerb minus width =>
          if Ascii.eqb c "-" then doPrintf (InVerb true width) rest ops
          else if is_digit c then
            doPrintf (InVerb minus (10 * width + (nat_of_ascii c - 48))) rest ops
          else if Ascii.eqb c "%" then String c (doPrintf InText rest ops)
          else
            match ops with
            | op :: ops' =>
                fmt_pad minus width (fmt_verb c op) +:+ doPrintf InText rest ops'
            | [] =>
                "%!" +:+ String c "" +:+ "(MISSING)" +:+ doPrintf InText rest []
            end
      end
  end.

Definition fmt_Sprintf (format : string) (ops : list Operand) : string :=
  doPrintf InText format ops.

(** ** What the package takes from outside

    The values passed as [args ...interface{}], [fmt.Sprintf] applied to
    a caller's template and such values, [filepath.Base], and the path
    under which the compiler knows [logging.go] (the file name that
    [runtime.Caller] reports for a frame of this package). *)
Class Platform := {
  Arg : Type;
  Sprintf : string → list Arg → string;
  filepath_Base : string → string;
  logging_go : string
}.

Section Model.
Context `{Platform}.

(** ** Records and formatters *)

Record Rec := {
  Record_Format : string;
  Record_Args : list Arg;
  Record_LoggerName : string;
  Record_Level : Level;
  Record_Time : Time;
  Record_Filename : string;
  Record_Line : Z;
  Record_ProcessID : Z;
  Record_ProcessName : string
}.

(** The [Formatter] interface has the single method [Format]. *)
Definition Formatter : Type := Rec → string.

(** [fmt.Sprint(rec.Time)] prints a [time.Time] with its [String] method. *)
Definition fmt_Sprint_Time (t : Time) : string := Time_String t.

Definition defaultFormatter_Format : Formatter := λ rec,
  fmt_Sprintf "%s [%s] %-8s %s"
    [ OString (slice_to 19 (fmt_Sprint_Time (Record_Time rec)));
      OString (Record_LoggerName rec);
      OString (LevelNames_at (Record_Level rec));
      OString (Sprintf (Record_Format rec) (Record_Args rec)) ].

Definition DefaultFormatter : Formatter := defaultFormatter_Format.

(** ** BaseHandler *)

Record BaseHandler := {
  BaseHandler_Level : Level;
  BaseHandler_Formatter : Formatter
}.

Definition NewBaseHandler : BaseHandler :=
  {| BaseHandler_Level := DefaultLevel; BaseHandler_Formatter := DefaultFormatter |}.

Definition BaseHandler_SetLevel (h : BaseHandler) (l : Level) : BaseHandler :=
  {| BaseHandler_Level := l; BaseHandler_Formatter := BaseHandler_Formatter h |}.

Definition BaseHandler_SetFormatter (h : BaseHandler) (f : Formatter) : BaseHandler :=
  {| BaseHandler_Level := BaseHandler_Level h; BaseHandler_Formatter := f |}.

Definition BaseHandler_FilterAndFormat (h : BaseHandler) (rec : Rec) : string :=
  if BaseHandler_Level h >=? Record_Level rec then BaseHandler_Formatter h rec
  else "".

(** ** Sinks *)

Inductive io_Writer :=
  | os_Stdout
  | os_Stderr
  | a_Writer (name : string).

(** A [syslog.Writer], as [syslog.New(priority, tag)] opens it. *)
Record syslog_Writer := {
  syslog_priority : Z;
  syslog_tag : string
}.


(** The six severity methods of a [syslog.Writer] that the package uses. *)
Inductive syslog_method :=
  | syslog_Crit
  | syslog_Err
  | syslog_Warning
  | syslog_Notice
  | syslog_Info
  | syslog_Debug.

(** One operation on a sink. The [error] such an operation returns is
    dropped at every call site in [logging.go]. *)
Inductive Op :=
  | io_Write (w : io_Writer) (p : string)
  | syslog_Send (w : syslog_Writer) (m : syslog_method) (message : string)
  | syslog_Close (w : syslog_Writer).

(** How the body of a handler method ends: it returns after some
    operations on its sink, or it calls a [nil] function value. *)
Inductive Ran :=
  | Returned (ops : list Op)
  | NilFuncCall.

(** ** WriterHandler *)

Record WriterHandler := {
  WriterHandler_BaseHandler : BaseHandler;
  WriterHandler_w : io_Writer;
  WriterHandler_Colorize : bool
}.

Definition NewWriterHandler (w : io_Writer) : WriterHandler :=
  {| WriterHandler_BaseHandler := NewBaseHandler;
     WriterHandler_w := w;
     WriterHandler_Colorize := false |}.

Definition WriterHandler_Handle (b : WriterHandler) (rec : Rec) : list Op :=
  let message := BaseHandler_FilterAndFormat (WriterHandler_BaseHandler b) rec in
  if String.eqb message "" then []
  else
    (if WriterHandler_Colorize b
     then [io_Write (WriterHandler_w b)
             (fmt_Sprintf (ESC +:+ "[%dm") [OInt (LevelColors_at (Record_Level rec))])]
     else [])
    ++ [io_Write (WriterHandler_w b) message]
    ++ (if WriterHandler_Colorize b
        then [io_Write (WriterHandler_w b) (ESC +:+ "[0m")]
        else []).

Definition WriterHandler_Close (b : WriterHandler) : list Op := [].

(** ** SyslogHandler *)

Record SyslogHandler := {
  SyslogHandler_BaseHandler : BaseHandler;
  SyslogHandler_w : syslog_Writer
}.


(** The [switch rec.Level] of [SyslogHandler.Handle]; [None] is the [nil]
    value that [fn] keeps when no case matches. *)
Definition SyslogHandler_fn (level : Level) : option syslog_method :=
  if level =? CRITICAL then Some syslog_Crit
  else if level =? ERROR then Some syslog_Err
  else if level =? WARNING then Some syslog_Warning
  else if level =? NOTICE then Some syslog_Notice
  else if level =? INFO then Some syslog_Info
  else if level =? DEBUG then Some syslog_Debug
  else None.

Definition SyslogHandler_Handle (b : SyslogHandler) (rec : Rec) : Ran :=
  let message := BaseHandler_FilterAndFormat (SyslogHandler_BaseHandler b) rec in
  if String.eqb message "" then Returned []
  else
    match SyslogHandler_fn (Record_Level rec) with
    | Some fn => Returned [syslog_Send (SyslogHandler_w b) fn message]
    | None => NilFuncCall
    end.

Definition SyslogHandler_Close (b : SyslogHandler) : list Op :=
  [syslog_Close (SyslogHandler_w b)].

(** ** The Handler interface and MultiHandler *)

(** The implementations of [Handler] in the package. A [MultiHandler]
    holds nothing but its [handlers]. Handlers are trees here: each one
    is held by the [MultiHandler] or the logger it was constructed for,
    which is how [NewWriterHandler], [NewSyslogHandler] and
    [NewMultiHandler] build them; a setter returns the handler as the
    method leaves it. *)
#[warnings="-register-all"] Inductive Handler :=
  | AWriterHandler (b : WriterHandler)
  | ASyslogHandler (b : SyslogHandler)
  | AMultiHandler (handlers : list Handler).

Definition NewMultiHandler (handlers : list Handler) : Handler :=
  AMultiHandler handlers.

(** [h.SetLevel(l)] through the interface; on a [MultiHandler] the loop
    [for _, h := range b.handlers { h.SetLevel(l) }]. *)
Fixpoint Handler_SetLevel (h : Handler) (l : Level) : Handler :=
  match h with
  | AWriterHandler b =>
      AWriterHandler
        {| WriterHandler_BaseHandler := BaseHandler_SetLevel (WriterHandler_BaseHandler b) l;
           WriterHandler_w := WriterHandler_w b;
           WriterHandler_Colorize := WriterHandler_Colorize b |}
  | ASyslogHandler b =>
      ASyslogHandler
        {| SyslogHandler_BaseHandler := BaseHandler_SetLevel (SyslogHandler_BaseHandler b) l;
           SyslogHandler_w := SyslogHandler_w b |}
  | AMultiHandler handlers =>
      AMultiHandler (map (λ h, Handler_SetLevel h l) handlers)
  end.

Fixpoint Handler_SetFormatter (h : Handler) (f : Formatter) : Handler :=
  match h with
  | AWriterHandler b =>
      AWriterHandler
        {| WriterHandler_BaseHandler := BaseHandler_SetFormatter (WriterHandler_BaseHandler b) f;
           WriterHandler_w := WriterHandler_w b;
           WriterHandler_Colorize := WriterHandler_Colorize b |}
  | ASyslogHandler b =>
      ASyslogHandler
        {| SyslogHandler_BaseHandler := BaseHandler_SetFormatter (SyslogHandler_BaseHandler b) f;
           SyslogHandler_w := SyslogHandler_w b |}
  | AMultiHandler handlers =>
      AMultiHandler (map (λ h, Handler_SetFormatter h f) handlers)
  end.

Definition MultiHandler_SetLevel (handlers : list Handler) (l : Level) : list Handler :=
  map (λ h, Handler_SetLevel h l) handlers.

Definition MultiHandler_SetFormatter (handlers : list Handler) (f : Formatter) : list Handler :=
  map (λ h, Handler_SetFormatter h f) handlers.

(** The thresholds and the formatters in force in a handler: its own
    [BaseHandler]'s, or those of all the handlers below a [MultiHandler]. *)
Fixpoint Handler_levels (h : Handler) : list Level :=
  match h with
  | AWriterHandler b => [BaseHandler_Level (WriterHandler_BaseHandler b)]
  | ASyslogHandler b => [BaseHandler_Level (SyslogHandler_BaseHandler b)]
  | AMultiHandler handlers => concat (map Handler_levels handlers)
  end.

Fixpoint Handler_formatters (h : Handler) : list Formatter :=
  match h with
  | AWriterHandler b => [BaseHandler_Formatter (WriterHandler_BaseHandler b)]
  | ASyslogHandler b => [BaseHandler_Formatter (SyslogHandler_BaseHandler b)]
  | AMultiHandler handlers => concat (map Handler_formatters handlers)
  end.

(** ** The process around a logging call *)

(** What a logging call reads from the process: the clock, [os.Args[0]]
    and the process identifier. *)
Record Env := {
  time_Now : Time;
  os_Args0 : string;
  os_Getpid : Z
}.

Definition procName (env : Env) : string := filepath_Base (os_Args0 env).

(** A position in a source file, and the call stack of a goroutine as
    [runtime.Caller] walks it: position 0 is where [runtime.Caller] itself
    is called, position 1 where the function around that call was called,
    and so on outwards. *)
Definition Pos : Type := string * Z.
Definition Stack : Type := list Pos.

(** A position in [logging.go]. *)
Definition here (line : Z) : Pos := (logging_go, line).

(** [runtime.Caller(skip)], without the program counter. The stack of a
    running goroutine ends in a frame of the runtime, so under a method
    that the program calls the frames that [log] asks for exist; the
    answer [false] is for a list that is too short. *)
Definition runtime_Caller (skip : nat) (stack : Stack) : string * Z * bool :=
  match stack !! skip with
  | Some (file, line) => (file, line, true)
  | None => ("", 0, false)
  end.

(** ** Logger *)

Record logger := {
  logger_Name : string;
  logger_Level : Level;
  logger_Handler : Handler
}.

(** A call that a logger makes on its handler. *)
Inductive Call :=
  | Handle (h : Handler) (rec : Rec)
  | Close (h : Handler).

(** How a method of the logger ends. *)
Inductive Outcome :=
  | Returns
  | Exits (code : Z)
  | Panics (v : string).

(** A run of a logger method: the calls made on the handler, in order,
    and the way the method ends. *)
Definition Run : Type := list Call * Outcome.

Definition skip : Run := ([], Returns).
Definition call (c : Call) : Run := ([c], Returns).
Definition os_Exit (code : Z) : Run := ([], Exits code).
Definition panic (v : string) : Run := ([], Panics v).

(** Statement sequencing: what follows an exit or a panic does not run. *)
Definition andThen (a b : Run) : Run :=
  match a with
  | (calls, Returns) => ((calls ++ b.1)%list, b.2)
  | (calls, _) => a
  end.

Declare Scope run_scope.
Notation "a ;; b" := (andThen a b)
  (at level 100, b at level 200, right associativity) : run_scope.
Local Open Scope run_scope.

(** The methods take the stack of their caller: its head is the position
    of the call to the method. *)

Definition logger_Close (l : logger) : Run := call (Close (logger_Handler l)).

Definition logger_SetLevel (l : logger) (level : Level) : logger :=
  {| logger_Name := logger_Name l; logger_Level := level;
     logger_Handler := logger_Handler l |}.

Definition logger_SetHandler (l : logger) (b : Handler) : logger :=
  {| logger_Name := logger_Name l; logger_Level := logger_Level l;
     logger_Handler := b |}.

Definition logger_log (l : logger) (env : Env) (stack : Stack)
    (level : Level) (format : string) (args : list Arg) : Run :=
  let format :=
    if negb (strings_HasSuffix format LF) then format +:+ LF else format in
  let '(file, line, ok) := runtime_Caller 2 (here 241 :: stack) in
  let '(file, line) := if negb ok then ("???", 0) else (file, line) in
  let rec :=
    {| Record_Format := format;
       Record_Args := args;
       Record_LoggerName := logger_Name l;
       Record_Level := level;
       Record_Time := time_Now env;
       Record_Filename := file;
       Record_Line := line;
       Record_ProcessName := procName env;
       Record_ProcessID := os_Getpid env |} in
  call (Handle (logger_Handler l) rec).

Definition logger_Critical (l : logger) (env : Env) (stack : Stack)
    (format : string) (args : list Arg) : Run :=
  if logger_Level l >=? CRITICAL
  then logger_log l env (here 201 :: stack) CRITICAL format args
  else skip.

Definition logger_Error (l : logger) (env : Env) (stack : Stack)
    (format : string) (args : list Arg) : Run :=
  if logger_Level l >=? ERROR
  then logger_log l env (here 207 :: stack) ERROR format args
  else skip.

Definition logger_Warning (l : logger) (env : Env) (stack : Stack)
    (format : string) (args : list Arg) : Run :=
  if logger_Level l >=? WARNING
  then logger_log l env (here 213 :: stack) WARNING format args
  else skip.

Definition logger_Notice (l : logger) (env : Env) (stack : Stack)
    (format : string) (args : list Arg) : Run :=
  if logger_Level l >=? NOTICE
  then logger_log l env (here 219 :: stack) NOTICE format args
  else skip.

Definition logger_Info (l : logger) (env : Env) (stack : Stack)
    (format : string) (args : list Arg) : Run :=
  if logger_Level l >=? INFO
  then logger_log l env (here 225 :: stack) INFO format args
  else skip.

Definition logger_Debug (l : logger) (env : Env) (stack : Stack)
    (format : string) (args : list Arg) : Run :=
  if logger_Level l >=? DEBUG
  then logger_log l env (here 231 :: stack) DEBUG format args
  else skip.

Definition logger_Fatal (l : logger) (env : Env) (stack : Stack)
    (format : string) (args : list Arg) : Run :=
  logger_Critical l env (here 188 :: stack) format args ;;
  logger_Close l ;;
  os_Exit 1.

Definition logger_Panic (l : logger) (env : Env) (stack : Stack)
    (format : string) (args : list Arg) : Run :=
  logger_Critical l env (here 194 :: stack) format args ;;
  logger_Close l ;;
  panic (Sprintf format args).

(** The six severity-named methods, by name. *)
Inductive Severity :=
  | Critical_method
  | Error_method
  | Warning_method
  | Notice_method
  | Info_method
  | Debug_method.

Definition Severity_level (m : Severity) : Level :=
  match m with
  | Critical_method => CRITICAL
  | Error_method => ERROR
  | Warning_method => WARNING
  | Notice_method => NOTICE
  | Info_method => INFO
  | Debug_method => DEBUG
  end.

Definition logger_method (m : Severity)
  : logger → Env → Stack → string → list Arg → Run :=
  match m with
  | Critical_method => logger_Critical
  | Error_method => logger_Error
  | Warning_method => logger_Warning
  | Notice_method => logger_Notice
  | Info_method => logger_Info
  | Debug_method => logger_Debug
  end.

(** ** The default logger and the package-level functions *)

Definition StdoutHandler : WriterHandler :=
  {| WriterHandler_BaseHandler := NewBaseHandler;
     WriterHandler_w := os_Stdout;
     WriterHandler_Colorize := true |}.

Definition StderrHandler : WriterHandler :=
  {| WriterHandler_BaseHandler := NewBaseHandler;
     WriterHandler_w := os_Stderr;
     WriterHandler_Colorize := true |}.

Definition DefaultHandler : Handler := AWriterHandler StderrHandler.

Definition NewLogger (name : string) : logger :=
  {| logger_Name := name; logger_Level := DefaultLevel;
     logger_Handler := DefaultHandler |}.

(** The value [DefaultLogger] is initialised with. The package-level
    functions below take the logger that the variable holds when they are
    called. *)
Definition DefaultLogger (env : Env) : logger := NewLogger (procName env).

Definition Fatal (dl : logger) (env : Env) (stack : Stack)
    (format : string) (args : list Arg) : Run :=
  logger_Fatal dl env (here 272 :: stack) format args.

Definition Panic (dl : logger) (env : Env) (stack : Stack)
    (format : string) (args : list Arg) : Run :=
  logger_Panic dl env (here 276 :: stack) format args.

Definition Critical (dl : logger) (env : Env) (stack : Stack)
    (format : string) (args : list Arg) : Run :=
  logger_Critical dl env (here 280 :: stack) format args.

Definition Error (dl : logger) (env : Env) (stack : Stack)
    (format : string) (args : list Arg) : Run :=
  logger_Error dl env (here 284 :: stack) format args.

Definition Warning (dl : logger) (env : Env) (stack : Stack)
    (format : string) (args : list Arg) : Run :=
  logger_Warning dl env (here 288 :: stack) format args.

Definition Notice (dl : logger) (env : Env) (stack : Stack)
    (format : string) (args : list Arg) : Run :=
  logger_Notice dl env (here 292 :: stack) format args.

Definition Info (dl : logger) (env : Env) (stack : Stack)
    (format : string) (args : list Arg) : Run :=
  logger_Info dl env (here 296 :: stack) format args.

Definition Debug (dl : logger) (env : Env) (stack : Stack)
    (format : string) (args : list Arg) : Run :=
  logger_Debug dl env (here 300 :: stack) format args.

(** The records handed to the handler in a run. *)
Definition delivered (r : Run) : list Rec :=
  omap (λ c, match c with Handle _ rec => Some rec | Close _ => None end) r.1.

End Model.

(** ** Reading aids for the statements *)

(** The number of newlines a string ends with. *)
Fixpoint trailing_newlines (s : string) : nat :=
  match s with
  | "" => O
  | String c rest =>
      let k := trailing_newlines rest in
      if Ascii.eqb c "010" && (k =? String.length rest)%nat then S k else k
  end.

(** The decimal digit [n], and numbers written with two and with four
    digits. *)
Definition digit (n : Z) : string :=
  String (ascii_of_nat (48 + Z.to_nat n)) "".

Definition two_digits (n : Z) : string := digit (n / 10) +:+ digit (n mod 10).

Definition four_digits (n : Z) : string :=
  digit (n / 1000) +:+ digit (n / 100 mod 10)
  +:+ digit (n / 10 mod 10) +:+ digit (n mod 10).

(** ["YYYY-MM-DD HH:MM:SS"]. *)
Definition timestamp (t : Time) : string :=
  four_digits (Time_year t) +:+ "-" +:+ two_digits (Time_month t) +:+ "-"
  +:+ two_digits (Time_day t) +:+ " " +:+ two_digits (Time_hour t) +:+ ":"
  +:+ two_digits (Time_minute t) +:+ ":" +:+ two_digits (Time_second t).

(** A string left-justified in a field of the given width. *)
Definition left_justified (width : nat) (s : string) : string :=
  s +:+ repeat_string (width - String.length s) " ".


(** The level whose severity method of the system log is [fn]. *)
Definition syslog_method_level (fn : syslog_method) : Level :=
  match fn with
  | syslog_Crit => CRITICAL
  | syslog_Err => ERROR
  | syslog_Warning => WARNING
  | syslog_Notice => NOTICE
  | syslog_Info => INFO
  | syslog_Debug => DEBUG
  end.

(** ** A concrete platform, for running the model

    Arguments are strings and integers, templates are rendered by
    [fmt_Sprintf], and a path is cut after its last slash. *)

Fixpoint last_element (acc path : string) : string :=
  match path with
  | "" => acc
  | String c rest =>
      if Ascii.eqb c "/" then last_element "" rest
      else last_element (acc +:+ String c "") rest
  end.

Definition a_Platform : Platform :=
  {| Arg := Operand;
     Sprintf := fmt_Sprintf;
     filepath_Base := last_element "";
     logging_go := "/go/src/logging/logging.go" |}.

Definition int_Arg (n : Z) : Arg (Platform := a_Platform) := OInt n.
Definition string_Arg (s : string) : Arg (Platform := a_Platform) := OString s.

Definition a_Time : Time :=
  {| Time_year := 2014; Time_month := 2; Time_day := 28;
     Time_hour := 18; Time_minute := 15; Time_second := 57;
     Time_rest := ".123456789 +0200 EET m=+0.004" |}.

Definition an_Env : Env :=
  {| time_Now := a_Time; os_Args0 := "/usr/local/bin/svc"; os_Getpid := 4711 |}.

(** A call site in the program that uses the package. *)
Definition main_go (line : Z) : Stack := [("/go/src/svc/main.go", line)].

Definition a_WriterHandler : WriterHandler (H := a_Platform) :=
  NewWriterHandler (a_Writer "buffer").

Definition a_logger : logger (H := a_Platform) :=
  {| logger_Name := "svc"; logger_Level := INFO;
     logger_Handler := AWriterHandler a_WriterHandler |}.

Definition a_Record : Rec (H := a_Platform) :=
  {| Record_Format := "request id=%d" +:+ LF;
     Record_Args := [int_Arg 42];
     Record_LoggerName := "svc";
     Record_Level := INFO;
     Record_Time := a_Time;
     Record_Filename := "/go/src/svc/main.go";
     Record_Line := 10;
     Record_ProcessID := 4711;
     Record_ProcessName := "svc" |}.




Definition a_SyslogHandler : SyslogHandler (H := a_Platform) :=
  {| SyslogHandler_BaseHandler :=
       {| BaseHandler_Level := DEBUG; BaseHandler_Formatter := DefaultFormatter |};
     SyslogHandler_w := {| syslog_priority := 14; syslog_tag := "svc" |} |}.


(** ** Goroutines: the fan-out of [MultiHandler.Handle] and [MultiHandler.Close] *)

Section Goroutines.
Context `{Platform}.
Local Open Scope list_scope.
Local Open Scope nat_scope.

(** The two methods that a [MultiHandler] runs on its handlers
    concurrently. *)
Inductive Request :=
  | Handle_request (rec : Rec)
  | Close_request.

Definition WriterHandler_run (b : WriterHandler) (q : Request) : Ran :=
  match q with
  | Handle_request rec => Returned (WriterHandler_Handle b rec)
  | Close_request => Returned (WriterHandler_Close b)
  end.

Definition SyslogHandler_run (b : SyslogHandler) (q : Request) : Ran :=
  match q with
  | Handle_request rec => SyslogHandler_Handle b rec
  | Close_request => Returned (SyslogHandler_Close b)
  end.

(** What a goroutine has left to do is a list of instructions:
    [Invoke h q] is the call [handler.Handle(rec)] or [handler.Close()]
    still to be made, [Perform op] one operation on a sink, [CallNil] the
    call of a [nil] function value, [wg_Done] and [wg_Wait] the calls on a
    [sync.WaitGroup], named by its index among the wait groups created so
    far. *)
Inductive Instr :=
  | Invoke (h : Handler) (q : Request)
  | Perform (op : Op)
  | CallNil
  | wg_Done (wg : nat)
  | wg_Wait (wg : nat).

Definition body (ran : Ran) : list Instr :=
  match ran with
  | Returned ops => Perform <$> ops
  | NilFuncCall => [CallNil]
  end.

(** Goroutine 0 is the caller of the [MultiHandler]. The trace lists the
    operations performed on the sinks, each with the goroutine that
    performed it and with whether the sink reported success. [crashed]
    is set when a goroutine panics: no goroutine recovers, so the
    process ends. *)
Record Machine := {
  goroutines : list (list Instr);
  waitgroups : list nat;
  trace : list (nat * Op * bool);
  crashed : bool
}.

Definition crash (m : Machine) : Machine :=
  {| goroutines := goroutines m; waitgroups := waitgroups m;
     trace := trace m; crashed := true |}.

Definition continue (m : Machine) (g : nat) (code : list Instr) : Machine :=
  {| goroutines := <[g := code]> (goroutines m); waitgroups := waitgroups m;
     trace := trace m; crashed := crashed m |}.

(** [go func(handler Handler) { handler.Handle(rec); wg.Done() }(handler)],
    and the same with [handler.Close()]. *)
Definition go_func (wg : nat) (q : Request) (handler : Handler) : list Instr :=
  [Invoke handler q; wg_Done wg].

(** One step of goroutine [g]; [ok] is the answer of the sink when the
    step is an operation on a sink. [None]: the goroutine cannot move (it
    has finished, it waits for a counter that is not zero, or the process
    has crashed).

    On a [MultiHandler], [Invoke] is the method up to [wg.Wait()]: a new
    wait group, [wg.Add(len(b.handlers))] and the loop that starts one
    goroutine per handler. [wg.Done()] panics when the counter is
    already zero. *)
Definition exec (m : Machine) (g : nat) (ok : bool) : option Machine :=
  if crashed m then None
  else
    match goroutines m !! g with
    | Some (Perform op :: code) =>
        Some {| goroutines := <[g := code]> (goroutines m);
                waitgroups := waitgroups m;
                trace := trace m ++ [(g, op, ok)];
                crashed := false |}
    | Some (CallNil :: code) => Some (crash m)
    | Some (Invoke (AWriterHandler b) q :: code) =>
        Some (continue m g (body (WriterHandler_run b q) ++ code))
    | Some (Invoke (ASyslogHandler b) q :: code) =>
        Some (continue m g (body (SyslogHandler_run b q) ++ code))
    | Some (Invoke (AMultiHandler handlers) q :: code) =>
        let wg := length (waitgroups m) in
        Some {| goroutines :=
                  <[g := wg_Wait wg :: code]> (goroutines m)
                  ++ (go_func wg q <$> handlers);
                waitgroups := waitgroups m ++ [length handlers];
                trace := trace m;
                crashed := false |}
    | Some (wg_Done wg :: code) =>
        match waitgroups m !! wg with
        | Some (S n) =>
            Some {| goroutines := <[g := code]> (goroutines m);
                    waitgroups := <[wg := n]> (waitgroups m);
                    trace := trace m;
                    crashed := false |}
        | _ => Some (crash m)
        end
    | Some (wg_Wait wg :: code) =>
        match waitgroups m !! wg with
        | Some O => Some (continue m g code)
        | _ => None
        end
    | Some [] | None => None
    end.

(** The scheduler picks the goroutine, the sink picks its answer. *)
Definition step (m m' : Machine) : Prop := ∃ g ok, exec m g ok = Some m'.

Fixpoint run (schedule : list (nat * bool)) (m : Machine) : option Machine :=
  match schedule with
  | [] => Some m
  | (g, ok) :: schedule' =>
      match exec m g ok with
      | Some m' => run schedule' m'
      | None => None
      end
  end.

(** A goroutine about to call a method of a [MultiHandler]. *)
Definition start (handlers : list Handler) (q : Request) : Machine :=
  {| goroutines := [[Invoke (AMultiHandler handlers) q]];
     waitgroups := [];
     trace := [];
     crashed := false |}.

Definition MultiHandler_Handle (handlers : list Handler) (rec : Rec) : Machine :=
  start handlers (Handle_request rec).

Definition MultiHandler_Close (handlers : list Handler) : Machine :=
  start handlers Close_request.

(** The call made by goroutine 0 has returned. *)
Definition returned (m : Machine) : Prop := goroutines m !! O = Some [].

(** Nothing can move any more. *)
Definition stuck (m : Machine) : Prop := ∀ m', ¬ step m m'.

(** The operations of goroutine [g] in a trace, in the order in which
    they were performed, and all operations of a trace. *)
Definition ops_of (g : nat) (t : list (nat * Op * bool)) : list Op :=
  omap (λ e, if decide (e.1.1 = g) then Some e.1.2 else None) t.

Definition ops (t : list (nat * Op * bool)) : list Op := (λ e, e.1.2) <$> t.

(** The operations of goroutine [g] that the sink reported as failed. *)
Definition failures_of (g : nat) (t : list (nat * Op * bool)) : list Op :=
  omap (λ e, if decide (e.1.1 = g ∧ e.2 = false) then Some e.1.2 else None) t.

(** The sink operations that a request asks of a handler: those of its
    own method, or those of all handlers below a [MultiHandler]. *)
Definition Ran_ops (ran : Ran) : list Op :=
  match ran with
  | Returned ops => ops
  | NilFuncCall => []
  end.

Fixpoint Handler_ops (h : Handler) (q : Request) : list Op :=
  match h with
  | AWriterHandler b => Ran_ops (WriterHandler_run b q)
  | ASyslogHandler b => Ran_ops (SyslogHandler_run b q)
  | AMultiHandler handlers => concat ((λ h, Handler_ops h q) <$> handlers)
  end.

(** Whether some handler calls a [nil] function value on the request. *)
Fixpoint Handler_panics (h : Handler) (q : Request) : bool :=
  match h with
  | AWriterHandler b => false
  | ASyslogHandler b =>
      match SyslogHandler_run b q with
      | NilFuncCall => true
      | Returned _ => false
      end
  | AMultiHandler handlers => existsb (λ h, Handler_panics h q) handlers
  end.

(** The operations that an instruction still stands for, and those
    outstanding in a pool of goroutines. *)
Definition Instr_ops (i : Instr) : list Op :=
  match i with
  | Invoke h q => Handler_ops h q
  | Perform op => [op]
  | _ => []
  end.

Definition outstanding (pool : list (list Instr)) : list Op :=
  pool ≫= (λ code, code ≫= Instr_ops).

(** An upper bound on the number of steps that an instruction, a
    goroutine and a machine can still make. *)
Fixpoint Handler_steps (h : Handler) (q : Request) : nat :=
  match h with
  | AWriterHandler b => S (length (body (WriterHandler_run b q)))
  | ASyslogHandler b => S (length (body (SyslogHandler_run b q)))
  | AMultiHandler handlers =>
      2 + sum_list_with (λ h, S (Handler_steps h q)) handlers
  end.

Definition Instr_steps (i : Instr) : nat :=
  match i with
  | Invoke h q => Handler_steps h q
  | _ => 1
  end.

Definition Machine_steps (m : Machine) : nat :=
  (if crashed m then 0 else 1)
  + sum_list_with (sum_list_with Instr_steps) (goroutines m).

(** Every goroutine has run to its end. *)
Definition finished (m : Machine) : Prop :=
  Forall (λ code, code = []) (goroutines m).

(** *** The shape of the pool *)

(** Whether the last instruction of a goroutine is [wg.Done()] on wait
    group [wg]. *)
Definition ends_in_Done (wg : nat) (code : list Instr) : bool :=
  match last code with
  | Some (wg_Done wg') => bool_decide (wg' = wg)
  | _ => false
  end.

(** The number of goroutines that still have to call [wg.Done()]. *)
Definition pending (wg : nat) (pool : list (list Instr)) : nat :=
  length (filter (λ code, ends_in_Done wg code = true) pool).

(** Code without [wg.Done()], whose [wg.Wait()] are on wait groups that
    satisfy [P]. *)
Definition waits_on (P : nat → Prop) (code : list Instr) : Prop :=
  Forall (λ i, match i with
               | wg_Done _ => False
               | wg_Wait wg => P wg
               | _ => True
               end) code.

(** A goroutine started by a [MultiHandler]: it has finished, or it ends
    with [wg.Done()] on the wait group of the [MultiHandler] that started
    it and waits only for wait groups created later. *)
Definition started_ok (n : nat) (code : list Instr) : Prop :=
  code = [] ∨
  ∃ code' wg, code = code' ++ [wg_Done wg] ∧ wg < n
    ∧ waits_on (λ wg', wg < wg' < n) code'.

(** The invariant of the pool: the caller never calls [wg.Done()]; the
    goroutines started are as above; every counter is the number of
    goroutines that still have to call [wg.Done()] on it; a counter that
    is not zero has a goroutine that is to wait for it. *)
Record wellformed (m : Machine) : Prop := {
  wf_caller : ∃ code, goroutines m !! O = Some code
                ∧ waits_on (λ wg, wg < length (waitgroups m)) code;
  wf_started : ∀ g code, goroutines m !! S g = Some code →
                 started_ok (length (waitgroups m)) code;
  wf_counter : ∀ wg n, waitgroups m !! wg = Some n →
                 pending wg (goroutines m) = n;
  wf_waiter : ∀ wg n, waitgroups m !! wg = Some (S n) →
                ∃ g code, goroutines m !! g = Some code ∧ wg_Wait wg ∈ code
}.

(** *** The goroutine of a handler *)

Definition is_MultiHandler (h : Handler) : bool :=
  match h with
  | AMultiHandler _ => true
  | _ => false
  end.

(** Code that calls no method of a [MultiHandler]. *)
Definition calls_no_MultiHandler (code : list Instr) : Prop :=
  Forall (λ i, match i with
               | Invoke h _ => is_MultiHandler h = false
               | _ => True
               end) code.

(** Goroutine [S i] is the one started for the handler at index [i]: if
    that handler is not a [MultiHandler] itself, the operations the
    goroutine has performed, followed by those it still has to perform,
    are the operations of the handler's method. *)
Definition fanned_out (handlers : list Handler) (q : Request) (m : Machine) : Prop :=
  length handlers < length (goroutines m)
  ∧ (∃ code, goroutines m !! O = Some code ∧ calls_no_MultiHandler code)
  ∧ ∀ i h code,
      handlers !! i = Some h → is_MultiHandler h = false →
      goroutines m !! S i = Some code →
      calls_no_MultiHandler code
      ∧ ops_of (S i) (trace m) ++ (code ≫= Instr_ops) = Handler_ops h q.

(** The machine has not moved yet, or it has started the goroutines. *)
Definition attributed (handlers : list Handler) (q : Request) (m : Machine) : Prop :=
  (goroutines m = [[Invoke (AMultiHandler handlers) q]] ∧ trace m = [])
  ∨ fanned_out handlers q m.

(** No instruction of the pool calls a [nil] function value. *)
Definition panic_free (m : Machine) : Prop :=
  ∀ g code i, goroutines m !! g = Some code → i ∈ code →
    match i with
    | CallNil => False
    | Invoke h q => Handler_panics h q = false
    | _ => True
    end.

End Goroutines.

(** A [MultiHandler] over a console, a system log and a buffer, and a
    record whose level is none of the six. *)
Definition three_handlers : list (Handler (H := a_Platform)) :=
  [ AWriterHandler StderrHandler;
    ASyslogHandler a_SyslogHandler;
    AWriterHandler a_WriterHandler ].

Definition an_unnamed_Record : Rec (H := a_Platform) :=
  {| Record_Format := "x" +:+ LF;
     Record_Args := [];
     Record_LoggerName := "svc";
     Record_Level := -1;
     Record_Time := a_Time;
     Record_Filename := "/go/src/svc/main.go";
     Record_Line := 10;
     Record_ProcessID := 4711;
     Record_ProcessName := "svc" |}.

(** A schedule that runs the three handlers to their end, with the answer
    of the sink to each operation, and the machine it leaves. *)
Definition a_schedule : list (nat * bool) :=
  [ (0, true); (1, true); (1, false); (2, true); (3, true); (1, true);
    (2, true); (1, true); (1, true); (2, true); (3, true); (3, true);
    (0, true) ]%nat.

Definition a_final_Machine : option (Machine (H := a_Platform)) :=
  Eval vm_compute in
    run a_schedule (MultiHandler_Handle three_handlers a_Record).

(** ** The package-level functions by name, and the sinks of a handler *)

Section Coverage.
Context `{Platform}.

(** The package-level function named after a severity. *)
Definition package_function (m : Severity)
  : logger → Env → Stack → string → list Arg → Run :=
  match m with
  | Critical_method => Critical
  | Error_method => Error
  | Warning_method => Warning
  | Notice_method => Notice
  | Info_method => Info
  | Debug_method => Debug
  end.

(** The connections to the system log that a handler holds: its own, or
    those of all the handlers below a [MultiHandler]. *)
Fixpoint Handler_syslogs (h : Handler) : list syslog_Writer :=
  match h with
  | AWriterHandler b => []
  | ASyslogHandler b => [SyslogHandler_w b]
  | AMultiHandler handlers => concat (Handler_syslogs <$> handlers)
  end.

(** The number of handlers that are not a [MultiHandler]. *)
Fixpoint Handler_leaves (h : Handler) : nat :=
  match h with
  | AWriterHandler b => 1
  | ASyslogHandler b => 1
  | AMultiHandler handlers => sum_list_with Handler_leaves handlers
  end.

End Coverage.

(** * Properties of the logger, the formatter and the handlers *)

Section LoggerProperties.
Context `{Platform}.


(** *** Strings *)

Lemma append_cons (c : ascii) (s t : string) :
  String c s +:+ t = String c (s +:+ t).
Proof. reflexivity. Qed.

Lemma append_nil_l (t : string) : "" +:+ t = t.
Proof. reflexivity. Qed.

Lemma append_nil_r (s : string) : s +:+ "" = s.
Proof. induction s as [|c s IH]; [done | by rewrite append_cons, IH]. Qed.

Lemma append_assoc (a b c : string) : (a +:+ b) +:+ c = a +:+ (b +:+ c).
Proof.
  induction a as [|x a IH]; [done | by rewrite !append_cons, IH].
Qed.

Lemma length_append (a b : string) :
  String.length (a +:+ b) = (String.length a + String.length b)%nat.
Proof.
  induction a as [|x a IH]; [done | rewrite append_cons; simpl; by rewrite IH].
Qed.

Lemma substring_append_l (a b : string) :
  String.substring 0 (String.length a) (a +:+ b) = a.
Proof.
  induction a as [|x a IH].
  - by destruct b.
  - rewrite append_cons. simpl. by rewrite IH.
Qed.

Lemma HasSuffix_LF_cons (c : ascii) (s : string) :
  strings_HasSuffix (String c s) LF =
    match s with
    | "" => Ascii.eqb c "010"
    | String _ _ => strings_HasSuffix s LF
    end.
Proof.
  unfold strings_HasSuffix. destruct s as [|d s]; simpl.
  - destruct (Ascii.eqb_spec c "010") as [->|Hne]; [done|].
    unfold LF. destruct (String.eqb_spec (String c "") (String "010" "")); congruence.
  - by rewrite Nat.sub_0_r.
Qed.

Lemma trailing_newlines_le (s : string) :
  (trailing_newlines s ≤ String.length s)%nat.
Proof.
  induction s as [|c s IH]; simpl; [lia|].
  destruct (_ && _); lia.
Qed.

Lemma HasSuffix_trailing_newlines (s : string) :
  strings_HasSuffix s LF = negb (trailing_newlines s =? 0)%nat.
Proof.
  induction s as [|c s IH]; [done|].
  rewrite HasSuffix_LF_cons. simpl trailing_newlines.
  destruct s as [|d s].
  - simpl. by destruct (Ascii.eqb c "010").
  - rewrite IH.
    destruct (Ascii.eqb c "010" && _) eqn:E; [|done].
    apply andb_true_iff in E as [_ E%Nat.eqb_eq].
    rewrite E. simpl. done.
Qed.

Lemma trailing_newlines_append_LF (s : string) :
  trailing_newlines (s +:+ LF) = S (trailing_newlines s).
Proof.
  induction s as [|c s IH]; [done|].
  rewrite append_cons. simpl. rewrite IH, length_append. simpl.
  replace (String.length s + 1)%nat with (S (String.length s)) by lia.
  simpl. by destruct (Ascii.eqb c "010" && _).
Qed.

(** *** Time and the default formatter *)

Lemma length_repeat_string (n : nat) (c : string) :
  String.length (repeat_string n c) = (n * String.length c)%nat.
Proof.
  induction n as [|n IH]; [done|].
  simpl. rewrite length_append, IH. lia.
Qed.

Lemma length_appendInt (x : Z) (width : nat) :
  (width ≤ String.length (appendInt x width))%nat.
Proof.
  unfold appendInt. rewrite !length_append, length_repeat_string. simpl. lia.
Qed.

Lemma appendInt_four_digits (y : Z) :
  0 ≤ y ≤ 9999 → appendInt y 4 = four_digits y.
Proof.
  intros Hy.
  assert (Hall : forallb (λ n, String.eqb (appendInt n 4) (four_digits n))
                         (seqZ 0 10000) = true) by (vm_compute; reflexivity).
  rewrite forallb_forall in Hall.
  apply String.eqb_eq, Hall, list_elem_of_In, elem_of_seqZ. lia.
Qed.

Lemma appendInt_two_digits (n : Z) :
  0 ≤ n ≤ 99 → appendInt n 2 = two_digits n.
Proof.
  intros Hn.
  assert (Hall : forallb (λ n, String.eqb (appendInt n 2) (two_digits n))
                         (seqZ 0 100) = true) by (vm_compute; reflexivity).
  rewrite forallb_forall in Hall.
  apply String.eqb_eq, Hall, list_elem_of_In, elem_of_seqZ. lia.
Qed.

Lemma length_timestamp (t : Time) : String.length (timestamp t) = 19%nat.
Proof. reflexivity. Qed.

(** The slice [fmt.Sprint(rec.Time)[:19]] is always in range. *)
Lemma Time_String_length (t : Time) : (19 ≤ String.length (Time_String t))%nat.
Proof.
  unfold Time_String. rewrite !length_append.
  pose proof (length_appendInt (Time_year t) 4).
  pose proof (length_appendInt (Time_month t) 2).
  pose proof (length_appendInt (Time_day t) 2).
  pose proof (length_appendInt (Time_hour t) 2).
  pose proof (length_appendInt (Time_minute t) 2).
  pose proof (length_appendInt (Time_second t) 2).
  simpl. lia.
Qed.

Lemma Time_String_timestamp (t : Time) :
  Time_wf t = true → Time_String t = timestamp t +:+ Time_rest t.
Proof.
  unfold Time_wf. rewrite !andb_true_iff, !Z.leb_le. intros Hwf.
  unfold Time_String, timestamp.
  rewrite appendInt_four_digits, !appendInt_two_digits by lia.
  by rewrite !append_assoc.
Qed.

Lemma slice_Time_String (t : Time) :
  Time_wf t = true → slice_to 19 (Time_String t) = timestamp t.
Proof.
  intros Hwf. rewrite Time_String_timestamp by done.
  unfold slice_to. rewrite <- (length_timestamp t) at 1.
  apply substring_append_l.
Qed.

(** The format literal of the default formatter on four strings. *)
Lemma Sprintf_default_format (a b c d : string) :
  fmt_Sprintf "%s [%s] %-8s %s" [OString a; OString b; OString c; OString d]
  = a +:+ " [" +:+ b +:+ "] " +:+ left_justified 8 c +:+ " " +:+ d.
Proof.
  unfold fmt_Sprintf. simpl. unfold fmt_pad, left_justified. simpl.
  by rewrite !append_nil_l, !append_nil_r.
Qed.

(** *** The logger *)

Lemma Severity_level_named (m : Severity) : named_level (Severity_level m) = true.
Proof. by destruct m. Qed.

(** A severity-named method either hands one record to the handler or
    does nothing. *)
Lemma logger_method_unfold (m : Severity) (l : logger) (env : Env)
    (stack : Stack) (format : string) (args : list Arg) :
  logger_method m l env stack format args =
    if Severity_level m <=? logger_Level l
    then logger_log l env (here (201 + 6 * Severity_level m) :: stack)
           (Severity_level m) format args
    else skip.
Proof.
  destruct m; simpl;
    unfold logger_Critical, logger_Error, logger_Warning, logger_Notice,
      logger_Info, logger_Debug;
    rewrite Z.geb_leb; reflexivity.
Qed.

Lemma logger_log_unfold (l : logger) (env : Env) (stack : Stack)
    (level : Level) (format : string) (args : list Arg) :
  ∃ rec, logger_log l env stack level format args
           = ([Handle (logger_Handler l) rec], Returns)
    ∧ Record_Level rec = level
    ∧ Record_Format rec
        = (if strings_HasSuffix format LF then format else format +:+ LF)
    ∧ Record_Args rec = args
    ∧ Record_LoggerName rec = logger_Name l
    ∧ Record_Time rec = time_Now env
    ∧ (Record_Filename rec, Record_Line rec)
        = default ("???", 0) (stack !! 1%nat).
Proof.
  unfold logger_log, runtime_Caller. 
  change ((here 241 :: stack) !! 2%nat) with (stack !! 1%nat).
  destruct (stack !! 1%nat) as [[file line]|]; simpl;
    (eexists; split; [reflexivity|]); simpl;
    by destruct (strings_HasSuffix format LF).
Qed.


(** C1. Level gating: a severity-named call at level B on a logger with
    threshold A hands exactly one record, of level B, to the logger's
    handler if and only if B <= A; otherwise it is a no-op: no record,
    no call on the handler. *)
Theorem level_gating (m : Severity) (l : logger) (env : Env) (stack : Stack)
    (format : string) (args : list Arg) :
  let run := logger_method m l env stack format args in
  ((∃ rec, run = ([Handle (logger_Handler l) rec], Returns)
           ∧ Record_Level rec = Severity_level m)
   ↔ Severity_level m ≤ logger_Level l)
  ∧ (Severity_level m ≤ logger_Level l ∨ run = ([], Returns)).
Proof.
  intros run. subst run. rewrite logger_method_unfold.
  destruct (Z.leb_spec (Severity_level m) (logger_Level l)) as [Hle|Hgt].
  - destruct (logger_log_unfold l env
                (here (201 + 6 * Severity_level m) :: stack)
                (Severity_level m) format args) as (rec & -> & Hlevel & _).
    split; [|by left]. split; [done|]. intros _. by exists rec.
  - split; [|by right]. split; [|lia].
    intros (rec & Hrun & _). discriminate Hrun.
Qed.

(** C2. [FilterAndFormat] returns the empty string when the record's
    level is greater than the handler's threshold and [Formatter.Format]
    of the record otherwise; on an empty result [WriterHandler.Handle]
    writes nothing and [SyslogHandler.Handle] sends nothing. *)
Theorem FilterAndFormat_filters (h : BaseHandler) (rec : Rec) :
  BaseHandler_FilterAndFormat h rec
    = (if BaseHandler_Level h <? Record_Level rec then ""
       else BaseHandler_Formatter h rec)
  ∧ (∀ b : WriterHandler,
       BaseHandler_FilterAndFormat (WriterHandler_BaseHandler b) rec = ""
       → WriterHandler_Handle b rec = [])
  ∧ (∀ b : SyslogHandler,
       BaseHandler_FilterAndFormat (SyslogHandler_BaseHandler b) rec = ""
       → SyslogHandler_Handle b rec = Returned []).
Proof.
  split; [|split].
  - unfold BaseHandler_FilterAndFormat. rewrite Z.geb_leb.
    destruct (Z.leb_spec (Record_Level rec) (BaseHandler_Level h)),
             (Z.ltb_spec (BaseHandler_Level h) (Record_Level rec)); done || lia.
  - intros b Hempty. unfold WriterHandler_Handle. by rewrite Hempty.
  - intros b Hempty. unfold SyslogHandler_Handle. by rewrite Hempty.
Qed.



(** C4 (as amended). The template stored in a delivered record ends in a
    newline: it is the template followed by a newline when the template
    does not end in one, and the template itself otherwise. It ends in
    exactly one newline in the first case and in as many as the template
    in the second. *)
Theorem newline_normalization (m : Severity) (l : logger) (env : Env)
    (stack : Stack) (format : string) (args : list Arg) :
  Severity_level m ≤ logger_Level l →
  ∃ rec, logger_method m l env stack format args
           = ([Handle (logger_Handler l) rec], Returns)
    ∧ Record_Format rec
        = (if strings_HasSuffix format LF then format else format +:+ LF)
    ∧ strings_HasSuffix (Record_Format rec) LF = true
    ∧ trailing_newlines (Record_Format rec)
        = Nat.max 1 (trailing_newlines format).
Proof.
  intros Hle. rewrite logger_method_unfold.
  apply Z.leb_le in Hle. rewrite Hle.
  destruct (logger_log_unfold l env
              (here (201 + 6 * Severity_level m) :: stack)
              (Severity_level m) format args) as (rec & -> & _ & Hformat & _).
  exists rec. split; [done|]. split; [done|]. rewrite Hformat.
  destruct (strings_HasSuffix format LF) eqn:Hsuffix.
  - split; [done|]. rewrite HasSuffix_trailing_newlines in Hsuffix.
    apply negb_true_iff, Nat.eqb_neq in Hsuffix. lia.
  - rewrite HasSuffix_trailing_newlines, trailing_newlines_append_LF.
    split; [done|]. rewrite HasSuffix_trailing_newlines in Hsuffix.
    apply negb_false_iff, Nat.eqb_eq in Hsuffix. lia.
Qed.

(** C7 (as amended). [Fatal] closes the logger's handler and then ends
    the process with status 1, and does not return; before that, if the
    logger's threshold is CRITICAL or above, it hands a CRITICAL record
    that carries the message to the handler. *)
Theorem Fatal_order (l : logger) (env : Env) (stack : Stack)
    (format : string) (args : list Arg) :
  ∃ rec, Record_Level rec = CRITICAL
    ∧ Record_Format rec
        = (if strings_HasSuffix format LF then format else format +:+ LF)
    ∧ Record_Args rec = args
    ∧ logger_Fatal l env stack format args
        = (((if CRITICAL <=? logger_Level l
             then [Handle (logger_Handler l) rec] else [])
            ++ [Close (logger_Handler l)])%list,
           Exits 1).
Proof.
  unfold logger_Fatal, logger_Critical. rewrite Z.geb_leb.
  destruct (logger_log_unfold l env (here 201 :: here 188 :: stack)
              CRITICAL format args) as (rec & -> & Hlevel & Hformat & Hargs & _).
  exists rec. by destruct (CRITICAL <=? logger_Level l).
Qed.

(** C9. On a logger whose threshold is one of the six named levels the
    guard of [Critical] holds, so [Critical], [Fatal] and [Panic] each
    hand their CRITICAL record to the handler. *)
Theorem Critical_never_gated (l : logger) (env : Env) (stack : Stack)
    (format : string) (args : list Arg) :
  named_level (logger_Level l) = true →
  (logger_Level l >=? CRITICAL) = true
  ∧ (∃ rec, logger_Critical l env stack format args
              = ([Handle (logger_Handler l) rec], Returns)
       ∧ Record_Level rec = CRITICAL)
  ∧ (∃ rec, logger_Fatal l env stack format args
              = ([Handle (logger_Handler l) rec; Close (logger_Handler l)],
                 Exits 1)
       ∧ Record_Level rec = CRITICAL)
  ∧ (∃ rec, logger_Panic l env stack format args
              = ([Handle (logger_Handler l) rec; Close (logger_Handler l)],
                 Panics (Sprintf format args))
       ∧ Record_Level rec = CRITICAL).
Proof.
  unfold named_level. rewrite andb_true_iff, !Z.leb_le. intros [Hle _].
  assert (Hguard : (logger_Level l >=? CRITICAL) = true)
    by (rewrite Z.geb_leb; by apply Z.leb_le).
  split; [done|].
  unfold logger_Panic, logger_Fatal, logger_Critical. rewrite Hguard.
  split; [|split].
  - destruct (logger_log_unfold l env (here 201 :: stack) CRITICAL format args)
      as (rec & -> & Hlevel & _). by exists rec.
  - destruct (logger_log_unfold l env (here 201 :: here 188 :: stack)
                CRITICAL format args) as (rec & -> & Hlevel & _).
    by exists rec.
  - destruct (logger_log_unfold l env (here 201 :: here 194 :: stack)
                CRITICAL format args) as (rec & -> & Hlevel & _).
    by exists rec.
Qed.

(** *** The system-log handler *)

Lemma SyslogHandler_fn_named (level : Level) :
  named_level level = true →
  ∃ fn, SyslogHandler_fn level = Some fn ∧ syslog_method_level fn = level.
Proof.
  unfold named_level, CRITICAL, DEBUG. rewrite andb_true_iff, !Z.leb_le.
  intros Hrange.
  assert (Hcases : level = 0 ∨ level = 1 ∨ level = 2 ∨ level = 3
                   ∨ level = 4 ∨ level = 5) by lia.
  destruct Hcases as [->|[->|[->|[->|[->| ->]]]]]; eexists; by split.
Qed.

Lemma SyslogHandler_fn_unnamed (level : Level) :
  named_level level = false → SyslogHandler_fn level = None.
Proof.
  unfold named_level, CRITICAL, DEBUG. rewrite andb_false_iff, !Z.leb_gt.
  intros Hrange. unfold SyslogHandler_fn, CRITICAL, ERROR, WARNING, NOTICE, INFO, DEBUG.
  repeat (case_match; [lia|]). done.
Qed.

(** The default formatter never renders the empty string, so with it a
    record is suppressed only by its level. *)
Lemma defaultFormatter_Format_nonempty (rec : Rec) :
  defaultFormatter_Format rec ≠ "".
Proof.
  unfold defaultFormatter_Format. rewrite Sprintf_default_format.
  intros Hempty. apply (f_equal String.length) in Hempty.
  rewrite !length_append in Hempty. simpl in Hempty. lia.
Qed.

(** C10. [SyslogHandler.Handle] calls a [nil] function value exactly
    when the record is not suppressed and its level is none of the six
    named ones (with the default formatter: whenever such a level is
    within the handler's threshold); for a named level it calls the
    method of the system log that matches the level, with the formatted
    message. *)
Theorem SyslogHandler_Handle_safety (b : SyslogHandler) (rec : Rec) :
  let message :=
    BaseHandler_FilterAndFormat (SyslogHandler_BaseHandler b) rec in
  (SyslogHandler_Handle b rec = NilFuncCall
   ↔ message ≠ "" ∧ named_level (Record_Level rec) = false)
  ∧ (BaseHandler_Formatter (SyslogHandler_BaseHandler b) = DefaultFormatter →
     Record_Level rec ≤ BaseHandler_Level (SyslogHandler_BaseHandler b) →
     named_level (Record_Level rec) = false →
     SyslogHandler_Handle b rec = NilFuncCall)
  ∧ (named_level (Record_Level rec) = true →
     message = "" ∧ SyslogHandler_Handle b rec = Returned []
     ∨ ∃ fn, SyslogHandler_Handle b rec
               = Returned [syslog_Send (SyslogHandler_w b) fn message]
         ∧ syslog_method_level fn = Record_Level rec).
Proof.
  intros message.
  assert (Hnil : SyslogHandler_Handle b rec = NilFuncCall
                 ↔ message ≠ "" ∧ named_level (Record_Level rec) = false).
  { unfold SyslogHandler_Handle. fold message.
    destruct (String.eqb_spec message "") as [Hempty|Hmessage].
    - split; [done | by intros [? _]].
    - destruct (named_level (Record_Level rec)) eqn:Hnamed.
      + destruct (SyslogHandler_fn_named _ Hnamed) as (fn & -> & _).
        split; [done | by intros [_ ?]].
      + by rewrite (SyslogHandler_fn_unnamed _ Hnamed). }
  split; [done|]. split.
  - intros Hformatter Hlevel Hnamed. apply Hnil. split; [|done].
    subst message. unfold BaseHandler_FilterAndFormat.
    rewrite Z.geb_leb. apply Z.leb_le in Hlevel. rewrite Hlevel, Hformatter.
    apply defaultFormatter_Format_nonempty.
  - intros Hnamed. unfold SyslogHandler_Handle. fold message.
    destruct (String.eqb_spec message "") as [Hempty|Hmessage]; [by left|].
    destruct (SyslogHandler_fn_named _ Hnamed) as (fn & -> & Hfn).
    right. by exists fn.
Qed.

(** *** Setting the level and the formatter of a tree of handlers *)

Lemma Handler_ind' (P : Handler → Prop) :
  (∀ b, P (AWriterHandler b)) →
  (∀ b, P (ASyslogHandler b)) →
  (∀ handlers, Forall P handlers → P (AMultiHandler handlers)) →
  ∀ h, P h.
Proof.
  intros Hwriter Hsyslog Hmulti. fix IH 1. intros [b|b|handlers].
  - apply Hwriter.
  - apply Hsyslog.
  - apply Hmulti. induction handlers as [|h handlers IHhandlers].
    + constructor.
    + constructor; [apply IH | apply IHhandlers].
Qed.

Lemma Handler_SetLevel_levels (h : Handler) (l : Level) :
  Handler_levels (Handler_SetLevel h l)
    = replicate (length (Handler_levels h)) l.
Proof.
  induction h as [b|b|handlers IH] using Handler_ind'; [done..|].
  simpl. induction IH as [|h handlers Hh _ IHhandlers]; [done|].
  simpl. rewrite length_app, replicate_add, Hh. by f_equal.
Qed.

Lemma Handler_SetLevel_formatters (h : Handler) (l : Level) :
  Handler_formatters (Handler_SetLevel h l) = Handler_formatters h.
Proof.
  induction h as [b|b|handlers IH] using Handler_ind'; [done..|].
  simpl. induction IH as [|h handlers Hh _ IHhandlers]; [done|].
  simpl. by rewrite Hh, IHhandlers.
Qed.

Lemma Handler_SetFormatter_formatters (h : Handler) (f : Formatter) :
  Handler_formatters (Handler_SetFormatter h f)
    = replicate (length (Handler_formatters h)) f.
Proof.
  induction h as [b|b|handlers IH] using Handler_ind'; [done..|].
  simpl. induction IH as [|h handlers Hh _ IHhandlers]; [done|].
  simpl. rewrite length_app, replicate_add, Hh. by f_equal.
Qed.

Lemma Handler_SetFormatter_levels (h : Handler) (f : Formatter) :
  Handler_levels (Handler_SetFormatter h f) = Handler_levels h.
Proof.
  induction h as [b|b|handlers IH] using Handler_ind'; [done..|].
  simpl. induction IH as [|h handlers Hh _ IHhandlers]; [done|].
  simpl. by rewrite Hh, IHhandlers.
Qed.

Lemma Handler_levels_length (h : Handler) :
  length (Handler_levels h) = length (Handler_formatters h).
Proof.
  induction h as [b|b|handlers IH] using Handler_ind'; [done..|].
  simpl. induction IH as [|h handlers Hh _ IHhandlers]; [done|].
  simpl. rewrite !length_app. by f_equal.
Qed.

(** C6. [SetLevel(L)] on a [MultiHandler] leaves every one of its
    handlers with threshold L, whatever it was before, and with the
    formatter it had; [SetFormatter(F)] leaves every one with formatter
    F and the threshold it had. The [MultiHandler] has neither of its
    own: without handlers there is no threshold and no formatter, and
    setting one changes nothing. *)
Theorem MultiHandler_cascade (handlers : list Handler) (L : Level) (F : Formatter) :
  (∀ i child, handlers !! i = Some child →
     ∃ child', MultiHandler_SetLevel handlers L !! i = Some child'
       ∧ Handler_levels child' = replicate (length (Handler_levels child)) L
       ∧ Handler_formatters child' = Handler_formatters child)
  ∧ (∀ i child, handlers !! i = Some child →
     ∃ child', MultiHandler_SetFormatter handlers F !! i = Some child'
       ∧ Handler_formatters child'
           = replicate (length (Handler_formatters child)) F
       ∧ Handler_levels child' = Handler_levels child)
  ∧ length (MultiHandler_SetLevel handlers L) = length handlers
  ∧ length (MultiHandler_SetFormatter handlers F) = length handlers
  ∧ Handler_levels (AMultiHandler []) = []
  ∧ Handler_formatters (AMultiHandler []) = []
  ∧ Handler_SetLevel (AMultiHandler []) L = AMultiHandler []
  ∧ Handler_SetFormatter (AMultiHandler []) F = AMultiHandler [].
Proof.
  unfold MultiHandler_SetLevel, MultiHandler_SetFormatter.
  repeat split; try by rewrite length_map.
  - intros i child Hchild. exists (Handler_SetLevel child L).
    rewrite list_lookup_fmap, Hchild.
    by rewrite Handler_SetLevel_levels, Handler_SetLevel_formatters.
  - intros i child Hchild. exists (Handler_SetFormatter child F).
    rewrite list_lookup_fmap, Hchild.
    by rewrite Handler_SetFormatter_levels, Handler_SetFormatter_formatters.
Qed.

(** *** The source location in a record *)

(** A severity-named method called from a position outside the package
    records that position. *)
Lemma method_location (m : Severity) (l : logger) (env : Env)
    (pos : Pos) (stack : Stack) (format : string) (args : list Arg) :
  Severity_level m ≤ logger_Level l →
  (λ rec, (Record_Filename rec, Record_Line rec))
    <$> delivered (logger_method m l env (pos :: stack) format args)
  = [pos].
Proof.
  intros Hle. rewrite logger_method_unfold.
  apply Z.leb_le in Hle. rewrite Hle.
  destruct (logger_log_unfold l env
              (here (201 + 6 * Severity_level m) :: pos :: stack)
              (Severity_level m) format args) as (rec & -> & H1 & H2 & H3 & H4 & H5 & Hpos).
  simpl in *. rewrite Hpos. by destruct pos.
Qed.

(** Through [Fatal] and [Panic] the position recorded is that of the
    call of [l.Critical] inside [logging.go]. *)
Lemma Fatal_location (l : logger) (env : Env) (stack : Stack)
    (format : string) (args : list Arg) :
  CRITICAL ≤ logger_Level l →
  (λ rec, (Record_Filename rec, Record_Line rec))
    <$> delivered (logger_Fatal l env stack format args)
  = [here 188].
Proof.
  intros Hle. unfold logger_Fatal, logger_Critical. rewrite Z.geb_leb.
  apply Z.leb_le in Hle. rewrite Hle.
  destruct (logger_log_unfold l env (here 201 :: here 188 :: stack)
              CRITICAL format args) as (rec' & -> & H1 & H2 & H3 & H4 & H5 & Hpos).
  simpl in *. by rewrite Hpos.
Qed.

(** Through a package-level function the position recorded is that of
    the call of the method of [DefaultLogger] inside [logging.go]. *)
Lemma Info_location (dl : logger) (env : Env) (stack : Stack)
    (format : string) (args : list Arg) :
  INFO ≤ logger_Level dl →
  (λ rec, (Record_Filename rec, Record_Line rec))
    <$> delivered (Info dl env stack format args)
  = [here 296].
Proof. intros Hle. by apply (method_location Info_method). Qed.

End LoggerProperties.

(** * Properties of the fan-out *)

Section GoroutineProperties.
Context `{Platform}.
Local Open Scope list_scope.
Local Open Scope nat_scope.

Implicit Types (m : Machine) (pool : list (list Instr)) (code : list Instr).

Lemma start_wellformed handlers q : wellformed (start handlers q).
Proof.
  split; simpl.
  - eexists. split; [done|]. repeat constructor.
  - intros g code Hg. by destruct g.
  - done.
  - done.
Qed.

Lemma ends_in_Done_app code i wg :
  ends_in_Done wg (code ++ [i]) = match i with wg_Done wg' => bool_decide (wg' = wg) | _ => false end.
Proof. unfold ends_in_Done. by rewrite last_snoc. Qed.

Lemma waits_on_ends_in_Done P code wg : waits_on P code → ends_in_Done wg code = false.
Proof.
  intros Hcode. unfold ends_in_Done. destruct (last code) as [i|] eqn:Hlast; [|done].
  apply last_Some_elem_of in Hlast. unfold waits_on in Hcode. rewrite Forall_forall in Hcode.
  specialize (Hcode i Hlast). by destruct i.
Qed.

Lemma pending_insert pool g code code' wg :
  pool !! g = Some code →
  ends_in_Done wg code' = ends_in_Done wg code →
  pending wg (<[g := code']> pool) = pending wg pool.
Proof.
  intros Hg Hends. unfold pending.
  rewrite <- (take_drop_middle pool g code Hg) at 2.
  rewrite insert_take_drop by (by eapply lookup_lt_Some).
  rewrite !filter_app, !filter_cons, Hends, !length_app.
  by case_decide.
Qed.

Lemma pending_insert_Done pool g code code' wg :
  pool !! g = Some code →
  ends_in_Done wg code = true →
  ends_in_Done wg code' = false →
  pending wg pool = S (pending wg (<[g := code']> pool)).
Proof.
  intros Hg Hcode Hcode'. unfold pending.
  rewrite <- (take_drop_middle pool g code Hg) at 1.
  rewrite insert_take_drop by (by eapply lookup_lt_Some).
  rewrite !filter_app, !filter_cons, Hcode, Hcode', !length_app.
  by repeat case_decide.
Qed.

Lemma pending_app pool pool' wg :
  pending wg (pool ++ pool') = pending wg pool + pending wg pool'.
Proof. unfold pending. by rewrite filter_app, length_app. Qed.

Lemma pending_go_func wg wg' q (handlers : list Handler) :
  pending wg (go_func wg' q <$> handlers)
    = if decide (wg' = wg) then length handlers else 0.
Proof.
  unfold pending. induction handlers as [|h handlers IH].
  - by case_decide.
  - rewrite fmap_cons, filter_cons.
    change (ends_in_Done wg (go_func wg' q h)) with (bool_decide (wg' = wg)).
    case_bool_decide; repeat case_decide; simplify_eq; simpl; by rewrite ?IH.
Qed.

Lemma pending_none pool wg :
  (∀ code, code ∈ pool → ends_in_Done wg code = false) → pending wg pool = 0.
Proof.
  intros Hnone. unfold pending. induction pool as [|code pool IH]; [done|].
  rewrite filter_cons. rewrite (Hnone code) by apply list_elem_of_here.
  case_decide; [done|]. apply IH. intros code' Hcode'.
  apply Hnone. by apply list_elem_of_further.
Qed.

Lemma pending_exists pool wg n :
  pending wg pool = S n →
  ∃ g code, pool !! g = Some code ∧ ends_in_Done wg code = true.
Proof.
  unfold pending. intros Hpending.
  destruct (filter _ pool) as [|code rest] eqn:Hfilter; [done|].
  assert (Hin : code ∈ filter (λ code, ends_in_Done wg code = true) pool)
    by (rewrite Hfilter; apply list_elem_of_here).
  apply list_elem_of_filter in Hin as [Hends Hin].
  apply list_elem_of_lookup in Hin as [g Hg]. by exists g, code.
Qed.

Lemma waits_on_mono (P Q : nat → Prop) code :
  (∀ wg, P wg → Q wg) → waits_on P code → waits_on Q code.
Proof.
  intros HPQ Hcode. eapply Forall_impl; [done|].
  intros [] ?; auto.
Qed.

Lemma started_ok_mono n n' code :
  n ≤ n' → started_ok n code → started_ok n' code.
Proof.
  intros Hle [->|(code' & wg & -> & Hwg & Hcode')]; [by left|].
  right. exists code', wg. split; [done|]. split; [lia|].
  eapply waits_on_mono; [|done]. simpl. lia.
Qed.

Lemma started_ok_cons n i rest :
  started_ok n (i :: rest) →
  (∃ wg, i = wg_Done wg ∧ rest = [] ∧ wg < n)
  ∨ (∃ code' wg, rest = code' ++ [wg_Done wg] ∧ wg < n
       ∧ waits_on (λ wg', wg < wg' < n) (i :: code')).
Proof.
  intros [?|(code' & wg & Hcode & Hwg & Hcode')]; [done|].
  destruct code' as [|i' code'']; simplify_eq/=.
  - left. by exists wg.
  - right. by exists code'', wg.
Qed.

Lemma started_ok_ends n code wg :
  started_ok n code → ends_in_Done wg code = true → wg < n.
Proof.
  intros [->|(code' & wg' & -> & Hwg & _)]; [done|].
  rewrite ends_in_Done_app. by intros ->%bool_decide_eq_true.
Qed.

Lemma ends_in_Done_step wg i rest new :
  (∀ wg', i ≠ wg_Done wg') →
  waits_on (λ _, True) new →
  ends_in_Done wg (new ++ rest) = ends_in_Done wg (i :: rest).
Proof.
  intros Hi Hnew. destruct rest as [|i' rest] using rev_ind.
  - rewrite app_nil_r, (waits_on_ends_in_Done _ _ _ Hnew).
    unfold ends_in_Done. simpl. destruct i; try done. by destruct (Hi wg0).
  - by rewrite app_assoc, app_comm_cons, !ends_in_Done_app.
Qed.

(** A step that replaces the first instruction of a goroutine by
    instructions without calls on wait groups. *)
Lemma wellformed_continue m m' g i rest new :
  wellformed m →
  goroutines m !! g = Some (i :: rest) →
  (∀ wg, i ≠ wg_Done wg) →
  (∀ wg, i = wg_Wait wg → waitgroups m !! wg = Some 0) →
  waits_on (λ _, False) new →
  goroutines m' = <[g := new ++ rest]> (goroutines m) →
  waitgroups m' = waitgroups m →
  wellformed m'.
Proof.
  intros [Hcaller Hstarted Hcounter Hwaiter] Hg Hi Hwait Hnew Hpool Hwgs.
  assert (Hlt : g < length (goroutines m)) by (by eapply lookup_lt_Some).
  split; rewrite ?Hpool, ?Hwgs.
  - destruct Hcaller as (code & Hcode & Hcode_ok).
    destruct (decide (g = 0)) as [->|Hne].
    + simplify_eq. eexists. split; [by apply list_lookup_insert_eq|].
      apply Forall_app. split.
      * eapply waits_on_mono; [|done]. done.
      * by eapply Forall_inv_tail.
    + exists code. by rewrite list_lookup_insert_ne.
  - intros g' code. destruct (decide (g = S g')) as [->|Hne].
    + rewrite list_lookup_insert_eq by done. intros [= <-].
      destruct (started_ok_cons _ _ _ (Hstarted _ _ Hg))
        as [(wg & -> & _)|(code' & wg & -> & Hwg & Hcode')];
        [by destruct (Hi wg)|].
      right. exists (new ++ code'), wg. split; [by rewrite app_assoc|].
      split; [done|]. apply Forall_app. split.
      * eapply waits_on_mono; [|done]. done.
      * by eapply Forall_inv_tail.
    + rewrite list_lookup_insert_ne by done. apply Hstarted.
  - intros wg n Hwg. rewrite <- (Hcounter _ _ Hwg).
    eapply pending_insert; [done|]. apply ends_in_Done_step; [done|].
    eapply waits_on_mono; [|done]. done.
  - intros wg n Hwg. destruct (Hwaiter _ _ Hwg) as (g' & code & Hg' & Hin).
    destruct (decide (g' = g)) as [->|Hne].
    + simplify_eq. exists g, (new ++ rest).
      split; [by apply list_lookup_insert_eq|].
      apply elem_of_app. right. apply elem_of_cons in Hin as [Heq|Hin]; [|done].
      rewrite (Hwait wg) in Hwg; done.
    + exists g', code. by rewrite list_lookup_insert_ne.
Qed.

(** A goroutine that calls [wg.Done()] is one that a [MultiHandler]
    started, and the call is the last thing it does. *)
Lemma wellformed_Done_inv m g wg rest :
  wellformed m →
  goroutines m !! g = Some (wg_Done wg :: rest) →
  rest = [] ∧ g ≠ 0 ∧ wg < length (waitgroups m).
Proof.
  intros [Hcaller Hstarted _ _] Hg. destruct g as [|g].
  - destruct Hcaller as (code & Hcode & Hcode_ok). simplify_eq.
    by apply Forall_inv in Hcode_ok.
  - destruct (started_ok_cons _ _ _ (Hstarted _ _ Hg))
      as [(wg' & [= ->] & -> & Hwg)|(code' & wg' & -> & _ & Hcode')]; [done|].
    by apply Forall_inv in Hcode'.
Qed.

Lemma wellformed_Done m m' g wg rest n :
  wellformed m →
  goroutines m !! g = Some (wg_Done wg :: rest) →
  waitgroups m !! wg = Some (S n) →
  goroutines m' = <[g := rest]> (goroutines m) →
  waitgroups m' = <[wg := n]> (waitgroups m) →
  wellformed m'.
Proof.
  intros Hwf Hg Hwg Hpool Hwgs.
  destruct (wellformed_Done_inv _ _ _ _ Hwf Hg) as (-> & Hg0 & Hlt).
  destruct Hwf as [Hcaller Hstarted Hcounter Hwaiter].
  assert (Hglt : g < length (goroutines m)) by (by eapply lookup_lt_Some).
  split; rewrite ?Hpool, ?Hwgs, ?length_insert.
  - destruct Hcaller as (code & Hcode & Hcode_ok).
    exists code. by rewrite list_lookup_insert_ne.
  - intros g' code. destruct (decide (g = S g')) as [->|Hne].
    + rewrite list_lookup_insert_eq by done. intros [= <-]. by left.
    + rewrite list_lookup_insert_ne by done. apply Hstarted.
  - intros wg' n'. destruct (decide (wg = wg')) as [<-|Hne].
    + rewrite list_lookup_insert_eq by done. intros [= <-].
      pose proof (Hcounter _ _ Hwg) as Hpending.
      rewrite (pending_insert_Done _ g [wg_Done wg] [] wg) in Hpending;
        [lia|done| |done].
      unfold ends_in_Done. simpl. by apply bool_decide_eq_true_2.
    + rewrite list_lookup_insert_ne by done. intros Hwg'.
      rewrite <- (Hcounter _ _ Hwg'). eapply pending_insert; [done|].
      unfold ends_in_Done. simpl. symmetry. by apply bool_decide_eq_false_2.
  - intros wg' n' Hwg'.
    assert (∃ n'', waitgroups m !! wg' = Some (S n'')) as [n'' Hwg''].
    { destruct (decide (wg = wg')) as [<-|Hne].
      - rewrite list_lookup_insert_eq in Hwg' by done. simplify_eq. eauto.
      - rewrite list_lookup_insert_ne in Hwg' by done. eauto. }
    destruct (Hwaiter _ _ Hwg'') as (g' & code & Hg' & Hin).
    destruct (decide (g' = g)) as [->|Hne].
    + simplify_eq. apply elem_of_cons in Hin as [?|Hin]; [done|].
      by apply elem_of_nil in Hin.
    + exists g', code. by rewrite list_lookup_insert_ne.
Qed.

(** The call of [MultiHandler.Handle] or [MultiHandler.Close] up to
    [wg.Wait()]. *)
Lemma wellformed_spawn m m' g handlers q rest :
  wellformed m →
  goroutines m !! g = Some (Invoke (AMultiHandler handlers) q :: rest) →
  goroutines m' =
    <[g := wg_Wait (length (waitgroups m)) :: rest]> (goroutines m)
    ++ (go_func (length (waitgroups m)) q <$> handlers) →
  waitgroups m' = waitgroups m ++ [length handlers] →
  wellformed m'.
Proof.
  intros [Hcaller Hstarted Hcounter Hwaiter] Hg Hpool Hwgs.
  assert (Hglt : g < length (goroutines m)) by (by eapply lookup_lt_Some).
  set (wg := length (waitgroups m)) in *.
  split; rewrite ?Hpool, ?Hwgs, ?length_app; simpl.
  - destruct Hcaller as (code & Hcode & Hcode_ok).
    rewrite lookup_app_l by (rewrite length_insert; lia).
    destruct (decide (g = 0)) as [->|Hne].
    + simplify_eq. eexists. split; [by apply list_lookup_insert_eq|].
      apply Forall_inv_tail in Hcode_ok. constructor; [lia|].
      eapply waits_on_mono; [|exact Hcode_ok]. simpl. lia.
    + exists code. rewrite list_lookup_insert_ne by done. split; [done|].
      eapply waits_on_mono; [|done]. simpl. lia.
  - intros g' code Hg'. apply lookup_app_Some in Hg' as [Hg'|[_ Hg']].
    + destruct (decide (g = S g')) as [->|Hne].
      * rewrite list_lookup_insert_eq in Hg' by done. simplify_eq.
        destruct (started_ok_cons _ _ _ (Hstarted _ _ Hg))
          as [(wg' & ? & _)|(code' & wg' & -> & Hwg' & Hcode')]; [done|].
        right. exists (wg_Wait wg :: code'), wg'. split; [done|].
        split; [lia|]. apply Forall_inv_tail in Hcode'.
        constructor; [lia|]. eapply waits_on_mono; [|exact Hcode']. simpl. lia.
      * rewrite list_lookup_insert_ne in Hg' by done.
        eapply started_ok_mono; [|by eapply Hstarted]. lia.
    + apply list_lookup_fmap_Some in Hg' as (h & -> & _).
      right. exists [Invoke h q], wg. split; [done|]. split; [lia|].
      by repeat constructor.
  - intros wg' n Hwg'. rewrite pending_app, pending_go_func.
    assert (Hends : ends_in_Done wg'
                      (wg_Wait wg :: rest)
                    = ends_in_Done wg' (Invoke (AMultiHandler handlers) q :: rest)).
    { apply (ends_in_Done_step wg' _ rest [wg_Wait wg]); [done|].
      by repeat constructor. }
    rewrite (pending_insert _ _ _ _ _ Hg Hends).
    apply lookup_app_Some in Hwg' as [Hwg'|[Hge Hwg']].
    + rewrite (Hcounter _ _ Hwg'). apply lookup_lt_Some in Hwg'.
      case_decide; lia.
    + apply list_lookup_singleton_Some in Hwg' as [Hwg' <-].
      assert (wg' = wg) as -> by (unfold wg; lia). case_decide; [|done].
      rewrite pending_none; [done|].
      intros code [j Hj]%list_elem_of_lookup.
      destruct (ends_in_Done wg code) eqn:Hcode; [|done]. exfalso.
      destruct j as [|j].
      * destruct Hcaller as (code0 & Hcode0 & Hcode0_ok). simplify_eq.
        by rewrite (waits_on_ends_in_Done _ _ _ Hcode0_ok) in Hcode.
      * pose proof (started_ok_ends _ _ _ (Hstarted _ _ Hj) Hcode). lia.
  - intros wg' n Hwg'. apply lookup_app_Some in Hwg' as [Hwg'|[Hge Hwg']].
    + destruct (Hwaiter _ _ Hwg') as (g' & code & Hg' & Hin).
      destruct (decide (g' = g)) as [->|Hne].
      * simplify_eq. exists g. eexists.
        rewrite lookup_app_l by (rewrite length_insert; lia).
        split; [by apply list_lookup_insert_eq|].
        apply elem_of_cons in Hin as [?|Hin]; [done|].
        by apply list_elem_of_further.
      * exists g', code. rewrite lookup_app_l.
        -- by rewrite list_lookup_insert_ne.
        -- rewrite length_insert. by eapply lookup_lt_Some.
    + apply list_lookup_singleton_Some in Hwg' as [Hwg' _].
      assert (wg' = wg) as -> by (unfold wg; lia).
      exists g. eexists. rewrite lookup_app_l by (rewrite length_insert; lia).
      split; [by apply list_lookup_insert_eq|]. apply list_elem_of_here.
Qed.

Lemma wellformed_crash m : wellformed m → wellformed (crash m).
Proof. by intros []. Qed.

Lemma body_plain ran : waits_on (λ _, False) (body ran).
Proof.
  destruct ran as [ops|]; [|by repeat constructor].
  unfold waits_on, body. apply Forall_fmap, Forall_true. done.
Qed.

Ltac exec_cases Hexec :=
  unfold exec in Hexec; repeat case_match; simplify_eq.

Lemma exec_wellformed m g ok m' :
  wellformed m → exec m g ok = Some m' → wellformed m'.
Proof.
  intros Hwf Hexec. exec_cases Hexec.
  all: try by apply wellformed_crash.
  - eapply wellformed_continue; [done|eassumption|done|done|apply body_plain|done..].
  - eapply wellformed_continue; [done|eassumption|done|done|apply body_plain|done..].
  - eapply wellformed_spawn; [done|eassumption|done..].
  - eapply (wellformed_continue _ _ _ _ _ []);
      [done|eassumption|done|done|constructor|done..].
  - eapply wellformed_Done; [done|eassumption|eassumption|done..].
  - eapply (wellformed_continue _ _ _ _ _ []);
      [done|eassumption|done| |constructor|done..].
    by intros wg' [= <-].
Qed.

(** Induction on the machines that a call on a [MultiHandler] reaches. *)
Lemma reachable_ind (P : Machine → Prop) handlers q :
  P (start handlers q) →
  (∀ m g ok m',
     rtc step (start handlers q) m → P m → exec m g ok = Some m' → P m') →
  ∀ m, rtc step (start handlers q) m → P m.
Proof.
  intros Hstart Hstep m Hreach.
  cut (rtc step (start handlers q) m ∧ P m); [by intros []|].
  revert m Hreach.
  apply (rtc_ind_r (R := step) (λ m, rtc step (start handlers q) m ∧ P m)).
  - done.
  - intros m m' _ (g & ok & Hexec) [Hreach HP]. split.
    + eapply rtc_r; [done|]. by exists g, ok.
    + by eapply Hstep.
Qed.

Lemma reachable_wellformed handlers q m :
  rtc step (start handlers q) m → wellformed m.
Proof.
  apply reachable_ind; [apply start_wellformed|].
  intros. by eapply exec_wellformed.
Qed.

Lemma pending_pos pool g code wg :
  pool !! g = Some code → ends_in_Done wg code = true → pending wg pool ≠ 0.
Proof.
  intros Hg Hends Hpending. unfold pending in Hpending.
  apply length_zero_iff_nil in Hpending.
  assert (Hin : code ∈ filter (λ code, ends_in_Done wg code = true) pool).
  { apply list_elem_of_filter. split; [done|]. by eapply list_elem_of_lookup_2. }
  rewrite Hpending in Hin. by apply elem_of_nil in Hin.
Qed.

(** Once the caller has returned, every counter is zero: a counter that
    is not zero has a waiter, which is the caller or a goroutine that an
    earlier wait group still counts. *)
Lemma returned_counters m :
  wellformed m → returned m → ∀ wg n, waitgroups m !! wg = Some n → n = 0.
Proof.
  intros [Hcaller Hstarted Hcounter Hwaiter] Hreturned wg.
  induction wg as [wg IH] using lt_wf_ind. intros [|n] Hwg; [done|].
  exfalso. destruct (Hwaiter _ _ Hwg) as ([|g] & code & Hg & Hin).
  - unfold returned in Hreturned. simplify_eq. by apply elem_of_nil in Hin.
  - destruct (Hstarted _ _ Hg) as [->|(code' & wg' & -> & Hwg' & Hcode')];
      [by apply elem_of_nil in Hin|].
    apply elem_of_app in Hin as [Hin|Hin];
      [|by apply list_elem_of_singleton in Hin].
    unfold waits_on in Hcode'. rewrite Forall_forall in Hcode'.
    specialize (Hcode' _ Hin). simpl in Hcode'.
    destruct (lookup_lt_is_Some_2 (waitgroups m) wg' Hwg') as [n' Hn'].
    pose proof (IH wg' ltac:(lia) _ Hn') as ->.
    eapply pending_pos; [exact Hg| |by eapply Hcounter].
    rewrite ends_in_Done_app. by apply bool_decide_eq_true_2.
Qed.

(** The barrier: when the caller has returned, every goroutine has
    run to its end. *)
Lemma returned_finished m : wellformed m → returned m → finished m.
Proof.
  intros Hwf Hreturned. pose proof (returned_counters _ Hwf Hreturned) as Hzero.
  destruct Hwf as [Hcaller Hstarted Hcounter Hwaiter].
  apply Forall_lookup. intros [|g] code Hg.
  - unfold returned in Hreturned. by simplify_eq.
  - destruct (Hstarted _ _ Hg) as [->|(code' & wg' & -> & Hwg' & Hcode')];
      [done|]. exfalso.
    destruct (lookup_lt_is_Some_2 (waitgroups m) wg' Hwg') as [n' Hn'].
    pose proof (Hzero _ _ Hn') as ->.
    eapply pending_pos; [exact Hg| |by eapply Hcounter].
    rewrite ends_in_Done_app. by apply bool_decide_eq_true_2.
Qed.

(** A machine that has finished does not move, and a process that has
    crashed has a goroutine that did not finish. *)
Lemma finished_stuck m : finished m → stuck m.
Proof.
  intros Hfinished m' (g & ok & Hexec). unfold finished in Hfinished.
  rewrite Forall_lookup in Hfinished.
  unfold exec in Hexec. destruct (crashed m); [done|].
  destruct (goroutines m !! g) as [code|] eqn:Hg; [|done].
  by rewrite (Hfinished _ _ Hg) in Hexec.
Qed.

Lemma exec_crashed m g ok m' :
  exec m g ok = Some m' → crashed m' = true → ¬ finished m'.
Proof.
  intros Hexec Hcrashed Hfinished. unfold finished in Hfinished.
  rewrite Forall_lookup in Hfinished.
  exec_cases Hexec; simpl in *; try congruence.
  all: match goal with
       | Hg : goroutines _ !! _ = Some _ |- _ =>
           by pose proof (Hfinished _ _ Hg)
       end.
Qed.

Lemma reachable_crashed handlers q m :
  rtc step (start handlers q) m → crashed m = true → ¬ finished m.
Proof.
  apply (reachable_ind (λ m, crashed m = true → ¬ finished m)); [done|].
  intros. by eapply exec_crashed.
Qed.

(** *** The operations performed *)

Lemma outstanding_insert pool g code :
  g < length pool →
  outstanding (<[g := code]> pool)
    ≡ₚ (code ≫= Instr_ops) ++ outstanding (<[g := []]> pool).
Proof.
  intros Hg. unfold outstanding. rewrite !insert_take_drop by done.
  rewrite !bind_app, !bind_cons. simpl. solve_Permutation.
Qed.

Lemma outstanding_lookup pool g code :
  pool !! g = Some code →
  outstanding pool ≡ₚ (code ≫= Instr_ops) ++ outstanding (<[g := []]> pool).
Proof.
  intros Hg. rewrite <- (list_insert_id pool g code Hg) at 1.
  apply outstanding_insert. by eapply lookup_lt_Some.
Qed.

Lemma outstanding_app pool pool' :
  outstanding (pool ++ pool') = outstanding pool ++ outstanding pool'.
Proof. apply bind_app. Qed.

Lemma body_ops ran : body ran ≫= Instr_ops = Ran_ops ran.
Proof.
  destruct ran as [ops|]; [|done]. simpl.
  induction ops as [|op ops IH]; [done|].
  rewrite fmap_cons, bind_cons, IH. done.
Qed.

Lemma go_func_ops wg q (handlers : list Handler) :
  outstanding (go_func wg q <$> handlers)
    = Handler_ops (AMultiHandler handlers) q.
Proof.
  unfold outstanding. simpl. induction handlers as [|h handlers IH]; [done|].
  rewrite !fmap_cons, bind_cons, IH. simpl. by rewrite app_nil_r.
Qed.

Lemma ops_app t t' : ops (t ++ t') = ops t ++ ops t'.
Proof. unfold ops. apply fmap_app. Qed.

(** A step moves operations from the pool to the trace and neither adds
    nor drops any. *)
Lemma exec_ops m g ok m' :
  exec m g ok = Some m' →
  ops (trace m') ++ outstanding (goroutines m')
    ≡ₚ ops (trace m) ++ outstanding (goroutines m).
Proof.
  intros Hexec. exec_cases Hexec; simpl; try reflexivity.
  all: match goal with
       | Hg : goroutines _ !! _ = Some _ |- _ =>
           rewrite ?outstanding_app, (outstanding_lookup _ _ _ Hg),
             outstanding_insert by (by eapply lookup_lt_Some)
       end.
  all: rewrite ?bind_app, ?bind_cons, ?body_ops, ?go_func_ops, ?ops_app; simpl.
  all: solve_Permutation.
Qed.

Lemma reachable_ops handlers q m :
  rtc step (start handlers q) m →
  ops (trace m) ++ outstanding (goroutines m)
    ≡ₚ Handler_ops (AMultiHandler handlers) q.
Proof.
  apply (reachable_ind (λ m, ops (trace m) ++ outstanding (goroutines m)
                              ≡ₚ Handler_ops (AMultiHandler handlers) q)).
  - unfold outstanding. simpl. by rewrite !app_nil_r.
  - intros m0 g ok m' _ IH Hexec. by rewrite (exec_ops _ _ _ _ Hexec).
Qed.

Lemma finished_outstanding m : finished m → outstanding (goroutines m) = [].
Proof.
  unfold finished, outstanding. induction 1 as [|code pool -> _ IH]; [done|].
  by rewrite bind_cons, IH.
Qed.

(** *** No panic *)

Lemma start_panic_free handlers q :
  Handler_panics (AMultiHandler handlers) q = false →
  panic_free (start handlers q).
Proof.
  intros Hpanics [|g] code i Hg Hin; [|done]. simpl in Hg. simplify_eq.
  by apply list_elem_of_singleton in Hin as ->.
Qed.

Lemma panic_free_head m g i rest :
  panic_free m → goroutines m !! g = Some (i :: rest) →
  match i with
  | CallNil => False
  | Invoke h q => Handler_panics h q = false
  | _ => True
  end.
Proof. intros Hfree Hg. eapply Hfree; [done|]. apply list_elem_of_here. Qed.

Lemma panic_free_continue m m' g i rest new :
  panic_free m →
  goroutines m !! g = Some (i :: rest) →
  (∀ i', i' ∈ new → match i' with
                    | CallNil => False
                    | Invoke h q => Handler_panics h q = false
                    | _ => True
                    end) →
  goroutines m' = <[g := new ++ rest]> (goroutines m) →
  panic_free m'.
Proof.
  intros Hfree Hg Hnew Hpool g' code i' Hg' Hin. rewrite Hpool in Hg'.
  destruct (decide (g' = g)) as [->|Hne].
  - rewrite list_lookup_insert_eq in Hg' by (by eapply lookup_lt_Some).
    simplify_eq. apply elem_of_app in Hin as [Hin|Hin]; [by apply Hnew|].
    eapply Hfree; [done|]. by apply list_elem_of_further.
  - rewrite list_lookup_insert_ne in Hg' by done. by eapply Hfree.
Qed.

Lemma body_Returned ops i : i ∈ body (Returned ops) → ∃ op, i = Perform op.
Proof. intros (op & -> & _)%list_elem_of_fmap. by exists op. Qed.

(** Without a call of a [nil] function value in the pool no step
    crashes the process: the counter that [wg.Done()] decrements counts
    the goroutine that calls it. *)
Lemma exec_panic_free m g ok m' :
  wellformed m → panic_free m → exec m g ok = Some m' →
  panic_free m' ∧ crashed m' = false.
Proof.
  intros Hwf Hfree Hexec. exec_cases Hexec.
  all: match goal with
       | Hg : goroutines _ !! _ = Some _ |- _ =>
           pose proof (panic_free_head _ _ _ _ Hfree Hg) as Hhead;
           simpl in Hhead
       end; try done.
  all: try (split; [|done];
            eapply (panic_free_continue _ _ _ _ _ []);
              [done|eassumption|by intros ? ?%elem_of_nil|done]).
  all: try solve
    [ exfalso;
      match goal with
      | Hg : goroutines _ !! _ = Some (wg_Done ?wg :: _) |- _ =>
          destruct (wellformed_Done_inv _ _ _ _ Hwf Hg) as (-> & _ & Hlt);
          destruct (lookup_lt_is_Some_2 _ _ Hlt) as [n' Hn'];
          pose proof (wf_counter _ Hwf _ _ Hn') as Hpending;
          eapply (pending_pos _ _ _ wg Hg);
            [unfold ends_in_Done; simpl; by apply bool_decide_eq_true_2|]
      end; congruence ].
  - split; [|done]. eapply panic_free_continue; [done|eassumption| |done].
    unfold WriterHandler_run. destruct q; by intros i' [op ->]%body_Returned.
  - split; [|done]. eapply panic_free_continue; [done|eassumption| |done].
    destruct (SyslogHandler_run b q); [|done].
    by intros i' [op ->]%body_Returned.
  - split; [|done]. intros g' code i' Hg' Hin. simpl in Hg'.
    apply lookup_app_Some in Hg' as [Hg'|[_ Hg']].
    + eapply (panic_free_continue m (continue m g _) g _ _ [wg_Wait _]);
        [done|eassumption| |done|exact Hg'|done].
      by intros ? ->%list_elem_of_singleton.
    + apply list_lookup_fmap_Some in Hg' as (h & -> & Hh).
      apply elem_of_cons in Hin as [->|Hin];
        [|by apply list_elem_of_singleton in Hin as ->].
      apply not_true_iff_false. intros Hh'. apply not_true_iff_false in Hhead.
      apply Hhead, existsb_exists. exists h. split; [|done].
      apply list_elem_of_In. by eapply list_elem_of_lookup_2.
Qed.

Lemma reachable_panic_free handlers q m :
  Handler_panics (AMultiHandler handlers) q = false →
  rtc step (start handlers q) m → panic_free m ∧ crashed m = false.
Proof.
  intros Hpanics.
  apply (reachable_ind (λ m, panic_free m ∧ crashed m = false)).
  - split; [by apply start_panic_free|done].
  - intros m0 g ok m' Hreach [Hfree _] Hexec.
    eapply exec_panic_free; [|done..]. by eapply reachable_wellformed.
Qed.

(** *** Progress *)

(** A goroutine with an instruction left can make a step, unless it
    waits for a counter that is not zero. *)
Lemma exec_enabled m g i rest :
  crashed m = false →
  goroutines m !! g = Some (i :: rest) →
  (∀ wg, i = wg_Wait wg → waitgroups m !! wg = Some 0) →
  ∃ m', step m m'.
Proof.
  intros Hcrashed Hg Hwait.
  assert (∃ m', exec m g true = Some m') as [m' Hexec];
    [|by exists m', g, true].
  unfold exec. rewrite Hcrashed, Hg. destruct i as [[]| | |wg|wg]; eauto.
  - destruct (waitgroups m !! wg) as [[|?]|]; eauto.
  - rewrite (Hwait wg) by done. eauto.
Qed.

Lemma waits_or_not m i :
  (∀ wg, i = wg_Wait wg → waitgroups m !! wg = Some 0)
  ∨ ∃ wg, i = wg_Wait wg ∧ waitgroups m !! wg ≠ Some 0.
Proof.
  destruct i as [| | | |wg]; try by left.
  destruct (decide (waitgroups m !! wg = Some 0)) as [Hwg|Hwg].
  - left. by intros ? [= <-].
  - right. by exists wg.
Qed.

(** A counter that is not zero is counted for by a goroutine that can
    make a step. That goroutine may itself wait, but then for a wait
    group created later than the one it is counted in. *)
Lemma counter_progress m :
  wellformed m → crashed m = false →
  ∀ k wg n, length (waitgroups m) - wg ≤ k →
    waitgroups m !! wg = Some (S n) → ∃ m', step m m'.
Proof.
  intros Hwf Hcrashed. induction k as [|k IH]; intros wg n Hk Hwg.
  { apply lookup_lt_Some in Hwg. lia. }
  destruct (pending_exists _ _ _ (wf_counter _ Hwf _ _ Hwg))
    as ([|g] & code & Hg & Hends).
  { destruct (wf_caller _ Hwf) as (code0 & Hcode0 & Hcode0_ok). simplify_eq.
    by rewrite (waits_on_ends_in_Done _ _ _ Hcode0_ok) in Hends. }
  destruct (wf_started _ Hwf _ _ Hg) as [->|(code' & wg' & -> & Hwg' & Hcode')];
    [done|].
  rewrite ends_in_Done_app in Hends. apply bool_decide_eq_true in Hends as ->.
  destruct code' as [|i code'].
  { eapply exec_enabled; [done|exact Hg|done]. }
  destruct (waits_or_not m i) as [Hok|(wg' & -> & Hne)].
  - eapply exec_enabled; [done|exact Hg|done].
  - apply Forall_inv in Hcode'. simpl in Hcode'.
    destruct (lookup_lt_is_Some_2 (waitgroups m) wg' ltac:(lia)) as [[|n'] Hn'];
      [done|].
    eapply (IH wg'); [lia|done].
Qed.

Lemma finished_or_not m :
  finished m ∨ ∃ g i rest, goroutines m !! g = Some (i :: rest).
Proof.
  unfold finished. induction (goroutines m) as [|code pool IH].
  - left. constructor.
  - destruct code as [|i rest]; [|right; by exists 0, i, rest].
    destruct IH as [IH|(g & i & rest & Hg)].
    + left. by constructor.
    + right. by exists (S g), i, rest.
Qed.

(** No deadlock: a process that has not crashed has finished or can
    make a step. *)
Lemma progress m :
  wellformed m → crashed m = false → finished m ∨ ∃ m', step m m'.
Proof.
  intros Hwf Hcrashed.
  destruct (finished_or_not m) as [?|(g & i & rest & Hg)]; [by left|right].
  destruct (waits_or_not m i) as [Hok|(wg & -> & Hne)].
  - eapply exec_enabled; [done|exact Hg|done].
  - assert (wg < length (waitgroups m)) as Hlt.
    { destruct g as [|g].
      - destruct (wf_caller _ Hwf) as (code0 & Hcode0 & Hcode0_ok).
        simplify_eq. by apply Forall_inv in Hcode0_ok.
      - destruct (started_ok_cons _ _ _ (wf_started _ Hwf _ _ Hg))
          as [(? & ? & _)|(code' & wg' & _ & _ & Hcode')]; [done|].
        apply Forall_inv in Hcode'. simpl in Hcode'. lia. }
    destruct (lookup_lt_is_Some_2 (waitgroups m) wg Hlt) as [[|n] Hn]; [done|].
    eapply counter_progress; [done..| |exact Hn]. done.
Qed.

(** *** Termination *)

Lemma steps_insert pool g code code' :
  pool !! g = Some code →
  sum_list_with (sum_list_with Instr_steps) (<[g := code']> pool)
  + sum_list_with Instr_steps code
  = sum_list_with (sum_list_with Instr_steps) pool
    + sum_list_with Instr_steps code'.
Proof.
  intros Hg. rewrite <- (take_drop_middle pool g code Hg) at 2.
  rewrite insert_take_drop by (by eapply lookup_lt_Some).
  rewrite !sum_list_with_app. simpl. lia.
Qed.

Lemma body_steps ran : sum_list_with Instr_steps (body ran) = length (body ran).
Proof.
  destruct ran as [ops|]; [|done]. unfold body.
  induction ops as [|op ops IH]; [done|]. simpl. f_equal. exact IH.
Qed.

Lemma go_func_steps wg q (handlers : list Handler) :
  sum_list_with (sum_list_with Instr_steps) (go_func wg q <$> handlers)
  = sum_list_with (λ h, S (Handler_steps h q)) handlers.
Proof.
  induction handlers as [|h handlers IH]; [done|].
  rewrite fmap_cons. simpl. rewrite <- IH. simpl. lia.
Qed.

(** Every step uses up some of the steps that the machine can still
    make. *)
Lemma exec_steps m g ok m' :
  exec m g ok = Some m' → Machine_steps m' < Machine_steps m.
Proof.
  intros Hexec. exec_cases Hexec; unfold Machine_steps; simpl.
  all: repeat match goal with
       | Hc : crashed _ = false |- _ => rewrite Hc; clear Hc
       end; try lia.
  all: match goal with
       | Hg : goroutines _ !! _ = Some _ |- _ =>
           pose proof (λ code', steps_insert _ _ _ code' Hg) as Hinsert
       end.
  - specialize (Hinsert (body (WriterHandler_run b q) ++ l0)).
    rewrite sum_list_with_app, body_steps in Hinsert. simpl in Hinsert. lia.
  - specialize (Hinsert (body (SyslogHandler_run b q) ++ l0)).
    rewrite sum_list_with_app, body_steps in Hinsert. simpl in Hinsert. lia.
  - specialize (Hinsert (wg_Wait (length (waitgroups m)) :: l0)).
    rewrite sum_list_with_app, go_func_steps. simpl in Hinsert. lia.
  - specialize (Hinsert l0). simpl in Hinsert. lia.
  - specialize (Hinsert l0). simpl in Hinsert. lia.
  - specialize (Hinsert l0). simpl in Hinsert. lia.
Qed.

Lemma nsteps_bounded n m m' :
  nsteps step n m m' → n + Machine_steps m' ≤ Machine_steps m.
Proof.
  induction 1 as [|n m1 m2 m3 (g & ok & Hexec) _ IH]; [done|].
  pose proof (exec_steps _ _ _ _ Hexec). lia.
Qed.

(** *** The goroutine of a handler *)

Lemma ops_of_app g t t' : ops_of g (t ++ t') = ops_of g t ++ ops_of g t'.
Proof. unfold ops_of. apply omap_app. Qed.

Lemma body_calls_no_MultiHandler ran : calls_no_MultiHandler (body ran).
Proof.
  destruct ran as [ops|]; [|by repeat constructor].
  unfold calls_no_MultiHandler, body. apply Forall_fmap, Forall_true. done.
Qed.

Lemma attributed_start handlers q : attributed handlers q (start handlers q).
Proof. by left. Qed.

(** A step of goroutine [g] that replaces its first instruction by
    [new], starts the goroutines [extra] and adds [t] to the trace. *)
Lemma fanned_out_continue handlers q m m' g i rest new extra t :
  fanned_out handlers q m →
  goroutines m !! g = Some (i :: rest) →
  goroutines m' = <[g := new ++ rest]> (goroutines m) ++ extra →
  trace m' = trace m ++ t →
  calls_no_MultiHandler new →
  (∀ g', g' ≠ g → ops_of g' t = []) →
  (match i with Invoke h _ => is_MultiHandler h = false | _ => True end →
   ops_of g t ++ (new ≫= Instr_ops) = Instr_ops i) →
  fanned_out handlers q m'.
Proof.
  intros (Hlen & Hcaller & Hhandlers) Hg Hpool' Htrace' Hnew Hother Hops.
  assert (Hglt : g < length (goroutines m)) by (by eapply lookup_lt_Some).
  unfold fanned_out. rewrite Hpool', Htrace'. split; [|split].
  - rewrite length_app, length_insert. lia.
  - destruct Hcaller as (code0 & Hcode0 & Hcode0_ok).
    rewrite lookup_app_l by (rewrite length_insert; lia).
    destruct (decide (g = 0)) as [->|Hne].
    + simplify_eq. eexists. split; [by apply list_lookup_insert_eq|].
      apply Forall_app. split; [done|]. by eapply Forall_inv_tail.
    + exists code0. by rewrite list_lookup_insert_ne.
  - intros j h code Hh Hleaf Hcode.
    assert (S j < length (goroutines m)) as Hjlt.
    { apply lookup_lt_Some in Hh. lia. }
    rewrite lookup_app_l in Hcode by (by rewrite length_insert).
    rewrite ops_of_app. destruct (decide (g = S j)) as [->|Hne].
    + rewrite list_lookup_insert_eq in Hcode by done. simplify_eq.
      destruct (Hhandlers _ _ _ Hh Hleaf Hg) as [Hcode_ok <-].
      split.
      * apply Forall_app. split; [done|]. by eapply Forall_inv_tail.
      * rewrite bind_app, bind_cons, <- !app_assoc. f_equal.
        rewrite !app_assoc. f_equal. apply Hops.
        by apply Forall_inv in Hcode_ok.
    + rewrite list_lookup_insert_ne in Hcode by done.
      destruct (Hhandlers _ _ _ Hh Hleaf Hcode) as [Hcode_ok <-].
      split; [done|]. rewrite (Hother (S j)) by done. by rewrite app_nil_r.
Qed.

Lemma exec_attributed handlers q m g ok m' :
  attributed handlers q m → exec m g ok = Some m' → attributed handlers q m'.
Proof.
  intros [[Hpool Htrace]|Hrunning] Hexec; right.
  - unfold exec in Hexec. destruct (crashed m); [done|].
    rewrite Hpool in Hexec. destruct g as [|g]; [|done]. simpl in Hexec.
    simplify_eq. unfold fanned_out. simpl. rewrite Htrace. split; [|split].
    + rewrite length_fmap. lia.
    + eexists. split; [done|]. by repeat constructor.
    + intros i h code Hh Hleaf Hcode. rewrite list_lookup_fmap, Hh in Hcode.
      simpl in Hcode. simplify_eq. split; [by repeat constructor|].
      simpl. by rewrite !app_nil_r.
  - exec_cases Hexec; try exact Hrunning.
    all: match goal with
         | Hg : goroutines _ !! _ = Some _ |- _ =>
             pose proof (λ m' new extra t,
                           fanned_out_continue _ _ _ m' _ _ _ new extra t
                             Hrunning Hg) as Hcontinue
         end.
    + eapply (Hcontinue _ _ [] []); simpl;
        [by rewrite app_nil_r|by rewrite app_nil_r
        |apply body_calls_no_MultiHandler|done|by rewrite body_ops].
    + eapply (Hcontinue _ _ [] []); simpl;
        [by rewrite app_nil_r|by rewrite app_nil_r
        |apply body_calls_no_MultiHandler|done|by rewrite body_ops].
    + eapply (Hcontinue _ [wg_Wait _] _ []); simpl;
        [done|by rewrite app_nil_r|by repeat constructor|done|done].
    + eapply (Hcontinue _ [] [] [(g, op, ok)]); simpl;
        [by rewrite app_nil_r|done|constructor| |].
      * intros g' Hg'. unfold ops_of. simpl. by case_decide.
      * intros _. unfold ops_of. simpl. by case_decide.
    + eapply (Hcontinue _ [] [] []); simpl;
        [by rewrite app_nil_r|by rewrite app_nil_r|constructor|done|done].
    + eapply (Hcontinue _ [] [] []); simpl;
        [by rewrite app_nil_r|by rewrite app_nil_r|constructor|done|done].
Qed.

Lemma reachable_attributed handlers q m :
  rtc step (start handlers q) m → attributed handlers q m.
Proof.
  apply reachable_ind; [apply attributed_start|].
  intros. by eapply exec_attributed.
Qed.

(** *** The fan-out of [MultiHandler.Handle] *)

Lemma run_rtc schedule m m' : run schedule m = Some m' → rtc step m m'.
Proof.
  revert m. induction schedule as [|[g ok] schedule IH]; intros m Hrun.
  - simpl in Hrun. by simplify_eq.
  - simpl in Hrun. destruct (exec m g ok) as [m1|] eqn:Hexec; [|done].
    eapply rtc_l; [by exists g, ok|]. by apply IH.
Qed.

Lemma crashed_stuck m : crashed m = true → stuck m.
Proof.
  intros Hcrashed m' (g & ok & Hexec). unfold exec in Hexec.
  by rewrite Hcrashed in Hexec.
Qed.

(** C5 (as amended). [MultiHandler.Handle] starts one goroutine per
    handler, each on the same record. Whatever the schedule and whatever
    the sinks answer, when [Handle] has returned every goroutine has run
    to its end, the operations performed are those of all the handlers,
    and each handler that is not itself a [MultiHandler] has performed
    its own operations in its own goroutine; the process has not crashed.
    If no handler calls a [nil] function value on the record, [Handle]
    does return: the process never crashes, it can make a step as long as
    [Handle] has not returned, and the number of steps is bounded. *)
Theorem MultiHandler_Handle_fan_out (handlers : list Handler) (rec : Rec) :
  let q := Handle_request rec in
  let m0 := MultiHandler_Handle handlers rec in
  (∀ ok, exec m0 0 ok
         = Some {| goroutines := [wg_Wait 0] :: (go_func 0 q <$> handlers);
                   waitgroups := [length handlers];
                   trace := [];
                   crashed := false |})
  ∧ (∀ m, rtc step m0 m → returned m →
       crashed m = false
       ∧ finished m
       ∧ ops (trace m) ≡ₚ Handler_ops (AMultiHandler handlers) q
       ∧ ∀ i h, handlers !! i = Some h →
           goroutines m !! S i = Some []
           ∧ (is_MultiHandler h = false →
              ops_of (S i) (trace m) = Handler_ops h q))
  ∧ (Handler_panics (AMultiHandler handlers) q = false →
     ∀ m, rtc step m0 m →
       crashed m = false ∧ (returned m ∨ ∃ m', step m m'))
  ∧ (∀ n m, nsteps step n m0 m → n ≤ Machine_steps m0).
Proof.
  intros q m0. split; [done|]. split; [|split].
  - intros m Hreach Hreturned.
    pose proof (reachable_wellformed _ _ _ Hreach) as Hwf.
    pose proof (returned_finished _ Hwf Hreturned) as Hfinished.
    split; [|split; [done|split]].
    + destruct (crashed m) eqn:Hcrashed; [|done].
      by destruct (reachable_crashed _ _ _ Hreach Hcrashed).
    + rewrite <- (reachable_ops handlers q m Hreach).
      by rewrite (finished_outstanding _ Hfinished), app_nil_r.
    + intros i h Hh.
      destruct (reachable_attributed _ _ _ Hreach)
        as [[Hpool _]|(Hlen & _ & Hhandlers)].
      { unfold returned in Hreturned. by rewrite Hpool in Hreturned. }
      assert (S i < length (goroutines m)) as Hlt.
      { apply lookup_lt_Some in Hh. lia. }
      destruct (lookup_lt_is_Some_2 _ _ Hlt) as [code Hcode].
      unfold finished in Hfinished. rewrite Forall_lookup in Hfinished.
      pose proof (Hfinished _ _ Hcode) as ->. split; [done|].
      intros Hleaf. destruct (Hhandlers _ _ _ Hh Hleaf Hcode) as [_ Hops].
      simpl in Hops. by rewrite app_nil_r in Hops.
  - intros Hpanics m Hreach.
    destruct (reachable_panic_free _ _ _ Hpanics Hreach) as [_ Hcrashed].
    split; [done|].
    pose proof (reachable_wellformed _ _ _ Hreach) as Hwf.
    destruct (progress _ Hwf Hcrashed) as [Hfinished|Hstep]; [left|by right].
    destruct (wf_caller _ Hwf) as (code & Hcode & _).
    unfold finished in Hfinished. rewrite Forall_lookup in Hfinished.
    unfold returned. by rewrite Hcode, (Hfinished _ _ Hcode).
  - intros n m Hsteps. pose proof (nsteps_bounded _ _ _ Hsteps). lia.
Qed.

End GoroutineProperties.

(** * Further properties of the logger and the handlers *)

Section CoverageProperties.
Context `{Platform}.

(** *** Panic *)

(** X1. [Panic] closes the logger's handler and then panics with the
    message rendered from the template as it was passed, without the
    newline that the record's template gets; before that, if the
    logger's threshold is CRITICAL or above, it hands a CRITICAL record
    to the handler. It does not return. *)
Theorem Panic_order (l : logger) (env : Env) (stack : Stack)
    (format : string) (args : list Arg) :
  ∃ rec, Record_Level rec = CRITICAL
    ∧ Record_Format rec
        = (if strings_HasSuffix format LF then format else format +:+ LF)
    ∧ Record_Args rec = args
    ∧ logger_Panic l env stack format args
        = (((if CRITICAL <=? logger_Level l
             then [Handle (logger_Handler l) rec] else [])
            ++ [Close (logger_Handler l)])%list,
           Panics (Sprintf format args)).
Proof.
  unfold logger_Panic, logger_Critical. rewrite Z.geb_leb.
  destruct (logger_log_unfold l env (here 201 :: here 194 :: stack)
              CRITICAL format args) as (rec & -> & Hlevel & Hformat & Hargs & _).
  exists rec. by destruct (CRITICAL <=? logger_Level l).
Qed.

(** *** Reconfiguring a logger *)

(** X2. After [SetLevel(A)] a severity-named call at level B is gated by
    A, whatever the threshold was before; the record, if any, goes to the
    handler the logger had and carries the logger's name. *)
Theorem SetLevel_takes_effect (m : Severity) (l : logger) (A : Level)
    (env : Env) (stack : Stack) (format : string) (args : list Arg) :
  let run := logger_method m (logger_SetLevel l A) env stack format args in
  Severity_level m ≤ A
  ∧ (∃ rec, run = ([Handle (logger_Handler l) rec], Returns)
       ∧ Record_Level rec = Severity_level m
       ∧ Record_LoggerName rec = logger_Name l)
  ∨ A < Severity_level m ∧ run = ([], Returns).
Proof.
  intros run. subst run. rewrite logger_method_unfold. simpl.
  destruct (Z.leb_spec (Severity_level m) A) as [Hle|Hgt]; [left|by right].
  split; [done|].
  destruct (logger_log_unfold (logger_SetLevel l A) env
              (here (201 + 6 * Severity_level m) :: stack)
              (Severity_level m) format args)
    as (rec & -> & Hlevel & _ & _ & Hname & _).
  by exists rec.
Qed.

(** X3. After [SetHandler(b)] a severity-named call hands its record to
    [b] and to no other handler; the threshold is the one the logger
    had. *)
Theorem SetHandler_takes_effect (m : Severity) (l : logger) (b : Handler)
    (env : Env) (stack : Stack) (format : string) (args : list Arg) :
  let run := logger_method m (logger_SetHandler l b) env stack format args in
  Severity_level m ≤ logger_Level l
  ∧ (∃ rec, run = ([Handle b rec], Returns)
       ∧ Record_Level rec = Severity_level m)
  ∨ logger_Level l < Severity_level m ∧ run = ([], Returns).
Proof.
  intros run. subst run. rewrite logger_method_unfold. simpl.
  destruct (Z.leb_spec (Severity_level m) (logger_Level l)) as [Hle|Hgt];
    [left|by right].
  split; [done|].
  destruct (logger_log_unfold (logger_SetHandler l b) env
              (here (201 + 6 * Severity_level m) :: stack)
              (Severity_level m) format args) as (rec & -> & Hlevel & _).
  by exists rec.
Qed.

(** *** The source location *)


(** *** The level tables *)

Lemma named_level_cases (l : Level) :
  named_level l = true →
  l = CRITICAL ∨ l = ERROR ∨ l = WARNING ∨ l = NOTICE ∨ l = INFO ∨ l = DEBUG.
Proof.
  unfold named_level, CRITICAL, ERROR, WARNING, NOTICE, INFO, DEBUG.
  rewrite andb_true_iff, !Z.leb_le. lia.
Qed.

Lemma unnamed_level_lookup (l : Level) :
  named_level l = false → LevelNames !! l = None ∧ LevelColors !! l = None.
Proof.
  unfold named_level, CRITICAL, DEBUG. rewrite andb_false_iff, !Z.leb_gt.
  intros Hrange. unfold LevelNames, LevelColors. simpl.
  unfold CRITICAL, ERROR, WARNING, NOTICE, INFO, DEBUG.
  rewrite !lookup_insert_ne by lia. by rewrite !lookup_empty.
Qed.

Lemma level_field_width (l : Level) :
  String.length (left_justified 8 (LevelNames_at l)) = 8%nat.
Proof.
  destruct (named_level l) eqn:Hl.
  - destruct (named_level_cases _ Hl) as [->|[->|[->|[->|[->| ->]]]]];
      reflexivity.
  - unfold LevelNames_at. by rewrite (proj1 (unnamed_level_lookup _ Hl)).
Qed.

(** X6. The two tables have an entry for each of the six named levels
    and for no other level: a named level has a name that is not empty
    and a colour code from 31 to 37, any other level reads as the empty
    name and colour 0. Two named levels never share a name, and no name
    is longer than the 8 columns of the level field, so that field is
    exactly 8 characters wide for every level. *)
Theorem Level_tables (l l' : Level) :
  (if named_level l
   then LevelNames_at l ≠ "" ∧ 31 ≤ LevelColors_at l ≤ 37
   else LevelNames_at l = "" ∧ LevelColors_at l = 0)
  ∧ (if named_level l && named_level l'
     then LevelNames_at l = LevelNames_at l' ↔ l = l'
     else True)
  ∧ String.length (left_justified 8 (LevelNames_at l)) = 8%nat.
Proof.
  split; [|split; [|apply level_field_width]].
  - destruct (named_level l) eqn:Hl.
    + destruct (named_level_cases _ Hl) as [->|[->|[->|[->|[->| ->]]]]];
        by vm_compute.
    + destruct (unnamed_level_lookup _ Hl) as [Hname Hcolour].
      unfold LevelNames_at, LevelColors_at. by rewrite Hname, Hcolour.
  - destruct (named_level l) eqn:Hl; [|done].
    destruct (named_level l') eqn:Hl'; [|done]. simpl.
    destruct (named_level_cases _ Hl) as [->|[->|[->|[->|[->| ->]]]]];
      destruct (named_level_cases _ Hl') as [->|[->|[->|[->|[->| ->]]]]];
      split; intros Heq; (reflexivity || (vm_compute in Heq; discriminate Heq)).
Qed.

(** X7. With a calendar time whose year has four digits, the default
    formatter puts the message after a prefix whose width depends on the
    length of the logger's name only: 19 columns of time, the name in
    brackets, 8 columns of level, and the separating spaces. *)
Theorem default_format_columns (rec : Rec) :
  Time_wf (Record_Time rec) = true →
  ∃ prefix, defaultFormatter_Format rec
            = prefix +:+ Sprintf (Record_Format rec) (Record_Args rec)
    ∧ String.length prefix
      = (32 + String.length (Record_LoggerName rec))%nat
    ∧ slice_to 19 prefix = timestamp (Record_Time rec).
Proof.
  intros Hwf. unfold defaultFormatter_Format, fmt_Sprint_Time.
  rewrite Sprintf_default_format, slice_Time_String by done.
  exists (timestamp (Record_Time rec)
          +:+ " [" +:+ Record_LoggerName rec +:+ "] "
          +:+ left_justified 8 (LevelNames_at (Record_Level rec)) +:+ " ").
  split; [by rewrite !append_assoc|]. split.
  - rewrite !length_append, level_field_width, length_timestamp. simpl. lia.
  - unfold slice_to. rewrite <- (length_timestamp (Record_Time rec)) at 1.
    apply substring_append_l.
Qed.

(** *** Filtering and writing *)

Lemma BaseHandler_SetLevel_fields (h : BaseHandler) (L : Level) :
  BaseHandler_Level (BaseHandler_SetLevel h L) = L
  ∧ BaseHandler_Formatter (BaseHandler_SetLevel h L) = BaseHandler_Formatter h.
Proof. done. Qed.

Lemma NewBaseHandler_fields :
  BaseHandler_Level NewBaseHandler = INFO
  ∧ BaseHandler_Formatter NewBaseHandler = defaultFormatter_Format.
Proof. done. Qed.

Lemma FilterAndFormat_NewBaseHandler (L : Level) (rec : Rec) :
  BaseHandler_FilterAndFormat (BaseHandler_SetLevel NewBaseHandler L) rec
  = if Record_Level rec <=? L then defaultFormatter_Format rec else "".
Proof.
  unfold BaseHandler_FilterAndFormat. rewrite Z.geb_leb.
  rewrite (proj1 (BaseHandler_SetLevel_fields _ _)).
  rewrite (proj2 (BaseHandler_SetLevel_fields _ _)).
  by rewrite (proj2 NewBaseHandler_fields).
Qed.

Lemma FilterAndFormat_default (L : Level) (rec : Rec) :
  BaseHandler_FilterAndFormat (BaseHandler_SetLevel NewBaseHandler L) rec = ""
  ↔ L < Record_Level rec.
Proof.
  rewrite FilterAndFormat_NewBaseHandler.
  destruct (Z.leb_spec (Record_Level rec) L); [|done].
  split; [|lia]. intros Hempty.
  by apply defaultFormatter_Format_nonempty in Hempty.
Qed.

(** X8. [FilterAndFormat] gives the empty string exactly when the
    record is more verbose than the threshold or the formatter renders
    the empty string; with the default formatter, which never does, the
    empty string means that the level was filtered. *)
Theorem FilterAndFormat_empty (h : BaseHandler) (L : Level) (rec : Rec) :
  (BaseHandler_FilterAndFormat h rec = ""
   ↔ BaseHandler_Level h < Record_Level rec ∨ BaseHandler_Formatter h rec = "")
  ∧ (BaseHandler_FilterAndFormat (BaseHandler_SetLevel NewBaseHandler L) rec = ""
     ↔ L < Record_Level rec).
Proof.
  split; [|apply FilterAndFormat_default].
  unfold BaseHandler_FilterAndFormat. rewrite Z.geb_leb.
  destruct (Z.leb_spec (Record_Level rec) (BaseHandler_Level h)).
  - split; [by right|]. intros [?|?]; [lia|done].
  - split; [by left|done].
Qed.

(** [fmt.Sprintf("\033[%dm", colour)]. *)
Lemma Sprintf_colour (colour : Z) :
  fmt_Sprintf (ESC +:+ "[%dm") [OInt colour] = ESC +:+ "[" +:+ pretty colour +:+ "m".
Proof.
  unfold fmt_Sprintf. simpl. unfold fmt_pad. simpl.
  by rewrite !append_nil_l.
Qed.

(** X9. [WriterHandler.Handle] writes to its own writer and to nothing
    else: nothing for a suppressed record, otherwise the message alone,
    or, when the handler colorizes, the escape sequence with the decimal
    colour code of the level, then the message, then the reset sequence,
    as three writes. *)
Theorem WriterHandler_Handle_writes (b : WriterHandler) (rec : Rec) :
  let message :=
    BaseHandler_FilterAndFormat (WriterHandler_BaseHandler b) rec in
  let w := WriterHandler_w b in
  WriterHandler_Handle b rec
  = if String.eqb message "" then []
    else if WriterHandler_Colorize b
    then [ io_Write w (ESC +:+ "[" +:+ pretty (LevelColors_at (Record_Level rec)) +:+ "m");
           io_Write w message;
           io_Write w (ESC +:+ "[0m") ]
    else [ io_Write w message ].
Proof.
  intros message w. unfold WriterHandler_Handle. fold message w.
  destruct (String.eqb message ""); [done|].
  rewrite Sprintf_colour. by destruct (WriterHandler_Colorize b).
Qed.

Lemma WriterHandler_Handle_nil (b : WriterHandler) (rec : Rec) :
  WriterHandler_Handle b rec = []
  ↔ BaseHandler_FilterAndFormat (WriterHandler_BaseHandler b) rec = "".
Proof.
  unfold WriterHandler_Handle.
  destruct (String.eqb_spec
              (BaseHandler_FilterAndFormat (WriterHandler_BaseHandler b) rec) "")
    as [Hempty|Hmessage]; [done|].
  split; [|done]. by destruct (WriterHandler_Colorize b).
Qed.

(** X10. Two gates in a row: a logger with threshold A whose handler is a
    stream handler with threshold T and the default formatter writes
    something for a call at level B exactly when B <= A and B <= T. *)
Theorem double_gating (m : Severity) (l : logger) (T : Level)
    (w : io_Writer) (colorize : bool)
    (env : Env) (stack : Stack) (format : string) (args : list Arg) :
  let b := {| WriterHandler_BaseHandler := BaseHandler_SetLevel NewBaseHandler T;
              WriterHandler_w := w;
              WriterHandler_Colorize := colorize |} in
  delivered (logger_method m (logger_SetHandler l (AWriterHandler b))
               env stack format args)
    ≫= WriterHandler_Handle b ≠ []
  ↔ Severity_level m ≤ logger_Level l ∧ Severity_level m ≤ T.
Proof.
  intros b. rewrite logger_method_unfold. simpl.
  destruct (Z.leb_spec (Severity_level m) (logger_Level l)) as [Hle|Hgt].
  - destruct (logger_log_unfold (logger_SetHandler l (AWriterHandler b)) env
                (here (201 + 6 * Severity_level m) :: stack)
                (Severity_level m) format args) as (rec & -> & Hlevel & _).
    unfold delivered. simpl. rewrite app_nil_r.
    rewrite WriterHandler_Handle_nil. subst b. simpl.
    rewrite FilterAndFormat_default, Hlevel. lia.
  - split; [done|lia].
Qed.

(** X11. A handler made by [NewWriterHandler] has threshold INFO, the
    default formatter and no colours: it writes the formatted line, in
    one write, for a record at INFO or more severe, and nothing for a
    record more verbose than INFO. *)
Theorem NewWriterHandler_Handle (w : io_Writer) (rec : Rec) :
  WriterHandler_Handle (NewWriterHandler w) rec
  = if Record_Level rec <=? INFO
    then [io_Write w (defaultFormatter_Format rec)]
    else [].
Proof.
  unfold WriterHandler_Handle.
  change (WriterHandler_BaseHandler (NewWriterHandler w)) with NewBaseHandler.
  change (WriterHandler_Colorize (NewWriterHandler w)) with false.
  change (WriterHandler_w (NewWriterHandler w)) with w.
  unfold BaseHandler_FilterAndFormat.
  rewrite (proj1 NewBaseHandler_fields), (proj2 NewBaseHandler_fields).
  rewrite Z.geb_leb.
  destruct (Record_Level rec <=? INFO); [|done].
  destruct (String.eqb_spec (defaultFormatter_Format rec) "") as [Hempty|_];
    [|done].
  by apply defaultFormatter_Format_nonempty in Hempty.
Qed.


(** *** The default logger *)

Lemma package_function_unfold (m : Severity) (dl : logger) (env : Env)
    (stack : Stack) (format : string) (args : list Arg) :
  package_function m dl env stack format args
  = logger_method m dl env (here (280 + 4 * Severity_level m) :: stack)
      format args.
Proof. by destruct m. Qed.

(** X13. The default logger starts with the name of the process, the
    threshold INFO and the colorized handler on standard error: through
    it the package-level [Critical], [Error], [Warning], [Notice] and
    [Info] hand a record to that handler, and [Debug] does nothing. *)
Theorem DefaultLogger_gating (m : Severity) (env : Env) (stack : Stack)
    (format : string) (args : list Arg) :
  let run := package_function m (DefaultLogger env) env stack format args in
  Severity_level m ≤ INFO
  ∧ (∃ rec, run = ([Handle (AWriterHandler StderrHandler) rec], Returns)
       ∧ Record_Level rec = Severity_level m
       ∧ Record_LoggerName rec = filepath_Base (os_Args0 env)
       ∧ WriterHandler_Colorize StderrHandler = true
       ∧ WriterHandler_w StderrHandler = os_Stderr)
  ∨ m = Debug_method ∧ run = ([], Returns).
Proof.
  intros run. subst run. rewrite package_function_unfold, logger_method_unfold.
  simpl. unfold DefaultLevel.
  destruct (Z.leb_spec (Severity_level m) INFO) as [Hle|Hgt].
  - left. split; [done|].
    destruct (logger_log_unfold (DefaultLogger env) env
                (here (201 + 6 * Severity_level m)
                 :: here (280 + 4 * Severity_level m) :: stack)
                (Severity_level m) format args)
      as (rec & -> & Hlevel & _ & _ & Hname & _).
    by exists rec.
  - right. by destruct m.
Qed.

End CoverageProperties.

Section CoverageFanOut.
Context `{Platform}.
Local Open Scope list_scope.
Local Open Scope nat_scope.

(** *** Setters on a tree of handlers *)

(** X14. On any handler, a [MultiHandler] with its handlers included,
    the last [SetLevel] and the last [SetFormatter] win, the two do not
    disturb each other, and neither changes what [Close] does. *)
Theorem Handler_setters_compose (h : Handler) (L L' : Z) (F F' : Formatter) :
  Handler_SetLevel (Handler_SetLevel h L) L' = Handler_SetLevel h L'
  ∧ Handler_SetFormatter (Handler_SetFormatter h F) F' = Handler_SetFormatter h F'
  ∧ Handler_SetLevel (Handler_SetFormatter h F) L
    = Handler_SetFormatter (Handler_SetLevel h L) F
  ∧ Handler_ops (Handler_SetLevel h L) Close_request = Handler_ops h Close_request
  ∧ Handler_ops (Handler_SetFormatter h F) Close_request
    = Handler_ops h Close_request.
Proof.
  induction h as [b|b|handlers IH] using Handler_ind'; [done..|].
  simpl. rewrite !map_map.
  repeat split; f_equal; try apply map_ext_Forall;
    try (rewrite <- !list_fmap_compose; apply Forall_fmap_ext);
    (eapply Forall_impl; [exact IH|]); simpl; intros h' Hh'; apply Hh'.
Qed.

(** *** Records that cannot make a handler panic *)

Lemma named_level_never_panics (h : Handler) (rec : Rec) :
  named_level (Record_Level rec) = true →
  Handler_panics h (Handle_request rec) = false.
Proof.
  intros Hnamed. induction h as [b|b|handlers IH] using Handler_ind'.
  - done.
  - simpl. unfold SyslogHandler_Handle.
    destruct (String.eqb _ ""); [done|].
    by destruct (SyslogHandler_fn_named _ Hnamed) as (fn & -> & _).
  - simpl. apply not_true_iff_false. intros (h & Hin & Hh)%existsb_exists.
    rewrite Forall_forall in IH.
    apply list_elem_of_In in Hin. by rewrite (IH h Hin) in Hh.
Qed.

Lemma Close_never_panics (h : Handler) : Handler_panics h Close_request = false.
Proof.
  induction h as [b|b|handlers IH] using Handler_ind'; [done..|].
  simpl. apply not_true_iff_false. intros (h & Hin & Hh)%existsb_exists.
  rewrite Forall_forall in IH.
  apply list_elem_of_In in Hin. by rewrite (IH h Hin) in Hh.
Qed.

(** Without a panic the call on a [MultiHandler] returns: the process
    does not crash and can make a step until the caller has returned. *)
Lemma panic_free_returns (handlers : list Handler) (q : Request) (m : Machine) :
  Handler_panics (AMultiHandler handlers) q = false →
  rtc step (start handlers q) m →
  crashed m = false ∧ (returned m ∨ ∃ m', step m m').
Proof.
  intros Hpanics Hreach.
  destruct (reachable_panic_free _ _ _ Hpanics Hreach) as [_ Hcrashed].
  split; [done|].
  pose proof (reachable_wellformed _ _ _ Hreach) as Hwf.
  destruct (progress _ Hwf Hcrashed) as [Hfinished|Hstep]; [left|by right].
  destruct (wf_caller _ Hwf) as (code & Hcode & _).
  unfold finished in Hfinished. rewrite Forall_lookup in Hfinished.
  unfold returned. by rewrite Hcode, (Hfinished _ _ Hcode).
Qed.

(** X15. Every record that a method of a logger hands to its handler,
    the severity-named ones, [Fatal] and [Panic], has one of the six
    named levels. No handler calls a [nil] function value on such a
    record, so [MultiHandler.Handle] on it never crashes the process and
    returns on every schedule. *)
Theorem logger_records_never_panic (m : Severity) (l : logger) (env : Env)
    (stack : Stack) (format : string) (args : list Arg)
    (handlers : list Handler) :
  Forall (λ rec,
            named_level (Record_Level rec) = true
            ∧ ∀ mach, rtc step (MultiHandler_Handle handlers rec) mach →
                crashed mach = false ∧ (returned mach ∨ ∃ mach', step mach mach'))
    (delivered (logger_method m l env stack format args)
     ++ delivered (logger_Fatal l env stack format args)
     ++ delivered (logger_Panic l env stack format args)).
Proof.
  assert (Hnamed : ∀ rec, named_level (Record_Level rec) = true →
            named_level (Record_Level rec) = true
            ∧ ∀ mach, rtc step (MultiHandler_Handle handlers rec) mach →
                crashed mach = false ∧ (returned mach ∨ ∃ mach', step mach mach')).
  { intros rec Hrec. split; [done|]. intros mach.
    apply panic_free_returns.
    by apply (named_level_never_panics (AMultiHandler handlers)). }
  rewrite !Forall_app. split; [|split].
  - rewrite logger_method_unfold.
    destruct (Severity_level m <=? logger_Level l)%Z; [|constructor].
    destruct (logger_log_unfold l env
                (here (201 + 6 * Severity_level m)%Z :: stack)
                (Severity_level m) format args) as (rec & -> & Hlevel & _).
    unfold delivered. simpl. constructor; [|constructor].
    apply Hnamed. rewrite Hlevel. apply Severity_level_named.
  - unfold logger_Fatal, logger_Critical.
    destruct (logger_Level l >=? CRITICAL)%Z; [|constructor].
    destruct (logger_log_unfold l env (here 201 :: here 188 :: stack)
                CRITICAL format args) as (rec & -> & Hlevel & _).
    unfold delivered. simpl. constructor; [|constructor].
    apply Hnamed. by rewrite Hlevel.
  - unfold logger_Panic, logger_Critical.
    destruct (logger_Level l >=? CRITICAL)%Z; [|constructor].
    destruct (logger_log_unfold l env (here 201 :: here 194 :: stack)
                CRITICAL format args) as (rec & -> & Hlevel & _).
    unfold delivered. simpl. constructor; [|constructor].
    apply Hnamed. by rewrite Hlevel.
Qed.

(** *** What reaches the sinks *)

Lemma trace_nil (handlers : list Handler) (q : Request) (m : Machine) :
  Handler_ops (AMultiHandler handlers) q = [] →
  rtc step (start handlers q) m → trace m = [].
Proof.
  intros Hops Hreach. pose proof (reachable_ops _ _ _ Hreach) as Hperm.
  rewrite Hops in Hperm. apply Permutation_nil_r in Hperm.
  apply app_eq_nil in Hperm as [Htrace _]. by apply fmap_nil_inv in Htrace.
Qed.

Lemma SetLevel_filters (h : Handler) (L : Z) (rec : Rec) :
  (L < Record_Level rec)%Z →
  Handler_ops (Handler_SetLevel h L) (Handle_request rec) = []
  ∧ Handler_panics (Handler_SetLevel h L) (Handle_request rec) = false.
Proof.
  intros Hlevel.
  assert (Hempty : ∀ b : BaseHandler,
            BaseHandler_FilterAndFormat (BaseHandler_SetLevel b L) rec = "").
  { intros b. unfold BaseHandler_FilterAndFormat. simpl.
    rewrite Z.geb_leb. by destruct (Z.leb_spec (Record_Level rec) L); [lia|]. }
  induction h as [b|b|handlers IH] using Handler_ind'.
  - simpl. unfold WriterHandler_Handle. simpl. by rewrite Hempty.
  - simpl. unfold SyslogHandler_Handle. simpl. by rewrite Hempty.
  - change (Handler_SetLevel (AMultiHandler handlers) L)
      with (AMultiHandler ((λ h, Handler_SetLevel h L) <$> handlers)).
    split.
    + change (concat ((λ h, Handler_ops h (Handle_request rec))
                        <$> ((λ h, Handler_SetLevel h L) <$> handlers)) = []).
      induction IH as [|h handlers [Hh _] _ IHhandlers]; [done|].
      rewrite !fmap_cons. simpl. by rewrite Hh, IHhandlers.
    + change (existsb (λ h, Handler_panics h (Handle_request rec))
                ((λ h, Handler_SetLevel h L) <$> handlers) = false).
      induction IH as [|h handlers [_ Hh] _ IHhandlers]; [done|].
      rewrite fmap_cons. simpl. by rewrite Hh, IHhandlers.
Qed.

(** X16. After [SetLevel(L)] on a [MultiHandler], [Handle] on a record
    more verbose than L reaches no sink, whatever the handlers below and
    their earlier thresholds: nothing is written or sent on any
    schedule, no handler panics, and [Handle] returns. *)
Theorem SetLevel_silences (handlers : list Handler) (L : Z) (rec : Rec) :
  (L < Record_Level rec)%Z →
  ∀ m, rtc step (MultiHandler_Handle (MultiHandler_SetLevel handlers L) rec) m →
    trace m = [] ∧ crashed m = false ∧ (returned m ∨ ∃ m', step m m').
Proof.
  intros Hlevel m Hreach.
  destruct (SetLevel_filters (AMultiHandler handlers) L rec Hlevel)
    as [Hops Hpanics].
  split; [by apply (trace_nil _ _ _ Hops)|].
  by apply (panic_free_returns _ _ _ Hpanics).
Qed.

Lemma Handler_ops_Close (h : Handler) :
  Handler_ops h Close_request = syslog_Close <$> Handler_syslogs h.
Proof.
  induction h as [b|b|handlers IH] using Handler_ind'; [done..|].
  change (concat ((λ h, Handler_ops h Close_request) <$> handlers)
          = syslog_Close <$> concat (Handler_syslogs <$> handlers)).
  induction IH as [|h handlers Hh _ IHhandlers]; [done|].
  rewrite !fmap_cons. simpl. by rewrite fmap_app, Hh, IHhandlers.
Qed.

Lemma returned_ops (handlers : list Handler) (q : Request) (m : Machine) :
  rtc step (start handlers q) m → returned m →
  finished m ∧ ops (trace m) ≡ₚ Handler_ops (AMultiHandler handlers) q.
Proof.
  intros Hreach Hreturned.
  pose proof (returned_finished _ (reachable_wellformed _ _ _ Hreach) Hreturned)
    as Hfinished.
  split; [done|]. rewrite <- (reachable_ops handlers q m Hreach).
  by rewrite (finished_outstanding _ Hfinished), app_nil_r.
Qed.

(** X17. [MultiHandler.Close] never crashes the process and returns on
    every schedule, after a bounded number of steps. When it has
    returned every goroutine has run to its end and the operations
    performed are one close of each connection to the system log held
    below the [MultiHandler], and nothing else: stream handlers are left
    alone. *)
Theorem MultiHandler_Close_fan_out (handlers : list Handler) :
  (∀ m, rtc step (MultiHandler_Close handlers) m →
     crashed m = false ∧ (returned m ∨ ∃ m', step m m'))
  ∧ (∀ m, rtc step (MultiHandler_Close handlers) m → returned m →
       finished m
       ∧ ops (trace m)
         ≡ₚ syslog_Close <$> Handler_syslogs (AMultiHandler handlers))
  ∧ (∀ n m, nsteps step n (MultiHandler_Close handlers) m →
       n ≤ Machine_steps (MultiHandler_Close handlers)).
Proof.
  split; [|split].
  - intros m. apply panic_free_returns, Close_never_panics.
  - intros m Hreach Hreturned. rewrite <- Handler_ops_Close.
    by apply returned_ops.
  - intros n m Hsteps. pose proof (nsteps_bounded _ _ _ Hsteps). lia.
Qed.

(** X18. A [MultiHandler] without handlers: [Handle] and [Close] start
    no goroutine, touch no sink and return, after at most two steps. *)
Theorem empty_MultiHandler (q : Request) :
  (∀ m, rtc step (start [] q) m →
     trace m = [] ∧ crashed m = false ∧ (returned m ∨ ∃ m', step m m'))
  ∧ (∀ n m, nsteps step n (start [] q) m → n ≤ 2).
Proof.
  split.
  - intros m Hreach. split; [by apply (trace_nil [] q)|].
    by apply (panic_free_returns [] q).
  - intros n m Hsteps. pose proof (nsteps_bounded _ _ _ Hsteps) as Hbound.
    destruct (panic_free_returns [] q m eq_refl (rtc_nsteps_2 _ _ _ Hsteps))
      as [Hcrashed _].
    unfold Machine_steps in Hbound. rewrite Hcrashed in Hbound.
    simpl in Hbound. lia.
Qed.

Lemma Handler_ops_length (h : Handler) (q : Request) :
  length (Handler_ops h q) ≤ 3 * Handler_leaves h.
Proof.
  induction h as [b|b|handlers IH] using Handler_ind'.
  - destruct q as [rec|]; simpl; [|lia]. unfold WriterHandler_Handle.
    destruct (String.eqb _ ""), (WriterHandler_Colorize b); simpl; lia.
  - destruct q as [rec|]; simpl; [|lia]. unfold SyslogHandler_Handle.
    destruct (String.eqb _ ""); [simpl; lia|].
    destruct (SyslogHandler_fn _); simpl; lia.
  - change (length (concat ((λ h, Handler_ops h q) <$> handlers))
            ≤ 3 * sum_list_with Handler_leaves handlers).
    induction IH as [|h handlers Hh _ IHhandlers]; [done|].
    rewrite fmap_cons. simpl. rewrite length_app. lia.
Qed.

(** X19. One call of [Handle] or [Close] on a [MultiHandler] performs at
    most three operations on sinks for each handler below it that is not
    a [MultiHandler] itself, on every schedule. *)
Theorem sink_operations_bounded (handlers : list Handler) (q : Request) :
  length (Handler_ops (AMultiHandler handlers) q)
    ≤ 3 * Handler_leaves (AMultiHandler handlers)
  ∧ ∀ m, rtc step (start handlers q) m →
      length (trace m) ≤ 3 * Handler_leaves (AMultiHandler handlers).
Proof.
  split; [apply Handler_ops_length|]. intros m Hreach.
  pose proof (Permutation_length (reachable_ops _ _ _ Hreach)) as Hlength.
  pose proof (Handler_ops_length (AMultiHandler handlers) q) as Hbound.
  rewrite length_app in Hlength. unfold ops in Hlength.
  rewrite length_fmap in Hlength. lia.
Qed.

(** X20. On every schedule, and also when the process crashes half
    way, the operations performed so far are among those that the
    handlers below the [MultiHandler] have for the request, each at most
    as often as it is asked for: no sink gets a record twice, and
    nothing else is written. *)
Theorem sink_operations_at_most_once (handlers : list Handler) (q : Request) :
  ∀ m, rtc step (start handlers q) m →
    ops (trace m) ⊆+ Handler_ops (AMultiHandler handlers) q.
Proof.
  intros m Hreach. rewrite <- (reachable_ops _ _ _ Hreach).
  apply submseteq_inserts_r. done.
Qed.

End CoverageFanOut.

(** * The model at work *)

Local Open Scope list_scope.

#[local] Existing Instance a_Platform.



(** A template without a final newline is stored with one. *)
Lemma newline_normalization_witness :
  Severity_level Info_method ≤ logger_Level a_logger
  ∧ ∃ rec, logger_method Info_method a_logger an_Env (main_go 10)
             "request id=%d" [int_Arg 42]
           = ([Handle (logger_Handler a_logger) rec], Returns)
      ∧ Record_Format rec = "request id=%d" +:+ LF
      ∧ strings_HasSuffix (Record_Format rec) LF = true
      ∧ trailing_newlines (Record_Format rec) = 1%nat.
Proof.
  split; [by vm_compute|].
  apply (newline_normalization (H := a_Platform) Info_method a_logger an_Env
           (main_go 10) "request id=%d" [int_Arg 42]).
  by vm_compute.
Defined.

(** C4, as stated, fails: a template that ends in two newlines is stored
    unchanged, and so is one that ends in more. *)
Lemma two_final_newlines_are_kept :
  (λ rec, (Record_Format rec, trailing_newlines (Record_Format rec)))
    <$> delivered (logger_Info a_logger an_Env (main_go 10)
                     ("a" +:+ LF +:+ LF) [])
  = [("a" +:+ LF +:+ LF, 2%nat)]
  ∧ ¬ (∀ format : string,
         Forall (λ rec, trailing_newlines (Record_Format rec) = 1%nat)
           (delivered (logger_Info a_logger an_Env (main_go 10) format []))).
Proof.
  split; [reflexivity|].
  intros Hone. specialize (Hone ("a" +:+ LF +:+ LF)).
  apply Forall_inv in Hone. vm_compute in Hone. discriminate Hone.
Qed.

(** C7, as stated, fails: on a logger whose threshold is below CRITICAL,
    [Fatal] hands no record to the handler before it closes it and ends
    the process. *)
Lemma Fatal_below_CRITICAL_logs_nothing :
  logger_Fatal (logger_SetLevel a_logger (-1)) an_Env (main_go 10) "boom" []
  = ([Close (logger_Handler a_logger)], Exits 1).
Proof. reflexivity. Qed.

(** On [a_logger], whose threshold is INFO, [Critical], [Fatal] and
    [Panic] deliver. *)
Lemma Critical_never_gated_witness :
  named_level (logger_Level a_logger) = true
  ∧ (logger_Level a_logger >=? CRITICAL) = true
  ∧ (∃ rec, logger_Critical a_logger an_Env (main_go 10) "boom" []
            = ([Handle (logger_Handler a_logger) rec], Returns)
       ∧ Record_Level rec = CRITICAL)
  ∧ (∃ rec, logger_Fatal a_logger an_Env (main_go 10) "boom" []
            = ([Handle (logger_Handler a_logger) rec;
                Close (logger_Handler a_logger)], Exits 1)
       ∧ Record_Level rec = CRITICAL)
  ∧ (∃ rec, logger_Panic a_logger an_Env (main_go 10) "boom" []
            = ([Handle (logger_Handler a_logger) rec;
                Close (logger_Handler a_logger)],
               Panics (Sprintf (Platform := a_Platform) "boom" []))
       ∧ Record_Level rec = CRITICAL).
Proof.
  split; [reflexivity|].
  exact (Critical_never_gated (H := a_Platform) a_logger an_Env (main_go 10)
           "boom" [] eq_refl).
Defined.

(** The spec's end-to-end scenarios: a logger named ["svc"] at INFO with
    a stream handler at INFO and the default formatter. [Info] writes
    one line; [Debug] writes nothing. *)
Example end_to_end_Info :
  delivered (logger_Info a_logger an_Env (main_go 10)
               "request id=%d" [int_Arg 42])
    ≫= WriterHandler_Handle a_WriterHandler
  = [io_Write (a_Writer "buffer")
       ("2014-02-28 18:15:57 [svc] INFO     request id=42" +:+ LF)].
Proof. reflexivity. Qed.

Example end_to_end_Debug :
  logger_Debug a_logger an_Env (main_go 11) "x" [] = ([], Returns).
Proof. reflexivity. Qed.

(** C8. What the code records for calls made at line 10 of the caller's
    [main.go]: a method of a logger records the call site, but the
    package-level [Info], and [Fatal] and [Panic] on a logger, record a
    line of [logging.go]. *)
Theorem location_through_wrappers :
  (λ rec, (Record_Filename rec, Record_Line rec))
    <$> delivered (logger_Info a_logger an_Env (main_go 10) "started" [])
  = [("/go/src/svc/main.go", 10)]
  ∧ (λ rec, (Record_Filename rec, Record_Line rec))
      <$> delivered (Info (DefaultLogger an_Env) an_Env (main_go 10) "started" [])
    = [("/go/src/logging/logging.go", 296)]
  ∧ (λ rec, (Record_Filename rec, Record_Line rec))
      <$> delivered (logger_Fatal a_logger an_Env (main_go 10) "boom" [])
    = [("/go/src/logging/logging.go", 188)]
  ∧ (λ rec, (Record_Filename rec, Record_Line rec))
      <$> delivered (logger_Panic a_logger an_Env (main_go 10) "boom" [])
    = [("/go/src/logging/logging.go", 194)].
Proof. repeat split; reflexivity. Qed.

(** C5, as stated, fails: the system-log handler calls a [nil] function
    value on a record whose level has no name; if its goroutine runs
    first, the process ends before the two other handlers, which both
    have a line to write, have written anything, and [Handle] does not
    return. *)
Lemma a_nil_call_ends_the_process :
  ∃ m, rtc step (MultiHandler_Handle three_handlers an_unnamed_Record) m
    ∧ crashed m = true
    ∧ stuck m
    ∧ ¬ returned m
    ∧ trace m = []
    ∧ Handler_ops (AWriterHandler StderrHandler)
        (Handle_request an_unnamed_Record) ≠ []
    ∧ Handler_ops (AWriterHandler a_WriterHandler)
        (Handle_request an_unnamed_Record) ≠ [].
Proof.
  eexists. split.
  { apply (run_rtc [(0, true); (2, true); (2, true)]%nat). reflexivity. }
  split; [reflexivity|]. split; [by apply crashed_stuck|].
  split; [|split; [|split]].
  - unfold returned. intros Hreturned.
    change (Some [wg_Wait 0%nat] = Some []) in Hreturned. discriminate Hreturned.
  - reflexivity.
  - by vm_compute.
  - by vm_compute.
Qed.

(** On [a_Record] none of the three handlers panics, so [Handle]
    returns on every schedule. *)
Lemma MultiHandler_Handle_fan_out_witness :
  Handler_panics (AMultiHandler three_handlers) (Handle_request a_Record) = false
  ∧ ∀ m, rtc step (MultiHandler_Handle three_handlers a_Record) m →
      crashed m = false ∧ (returned m ∨ ∃ m', step m m').
Proof.
  split; [reflexivity|].
  destruct (MultiHandler_Handle_fan_out three_handlers a_Record)
    as (_ & _ & Hreturns & _).
  exact (Hreturns eq_refl).
Defined.

(** A write that fails stays with its handler: in a run in which the
    first write of the console handler fails, [Handle] returns after all
    three handlers have performed their operations. *)
Example a_failed_write_is_isolated :
  run a_schedule (MultiHandler_Handle three_handlers a_Record) = a_final_Machine
  ∧ ∃ m, a_final_Machine = Some m
      ∧ returned m
      ∧ length (failures_of 1 (trace m)) = 1%nat
      ∧ ops_of 1 (trace m)
        = Handler_ops (AWriterHandler StderrHandler) (Handle_request a_Record)
      ∧ ops_of 2 (trace m)
        = Handler_ops (ASyslogHandler a_SyslogHandler) (Handle_request a_Record)
      ∧ ops_of 3 (trace m)
        = Handler_ops (AWriterHandler a_WriterHandler) (Handle_request a_Record).
Proof.
  split; [vm_compute; reflexivity|].
  eexists. split; [reflexivity|].
  repeat split; vm_compute; reflexivity.
Qed.


(** The three handlers set to WARNING stay silent on [a_Record], which
    is at INFO. *)
Lemma SetLevel_silences_witness :
  WARNING < Record_Level a_Record
  ∧ ∀ m, rtc step (MultiHandler_Handle
                     (MultiHandler_SetLevel three_handlers WARNING) a_Record) m →
      trace m = [] ∧ crashed m = false ∧ (returned m ∨ ∃ m', step m m').
Proof.
  split; [by vm_compute|].
  apply (SetLevel_silences three_handlers WARNING a_Record).
  by vm_compute.
Defined.

(** The prefix of the line for [a_Record] has 32 + 3 columns. *)
Lemma default_format_columns_witness :
  Time_wf (Record_Time a_Record) = true
  ∧ ∃ prefix, defaultFormatter_Format a_Record
              = prefix +:+ Sprintf (Record_Format a_Record) (Record_Args a_Record)
      ∧ String.length prefix
        = (32 + String.length (Record_LoggerName a_Record))%nat
      ∧ slice_to 19 prefix = timestamp (Record_Time a_Record).
Proof.
  split; [reflexivity|].
  exact (default_format_columns a_Record eq_refl).
Defined.

(** The run of [a_schedule], in which one write fails. *)
Lemma sink_operations_at_most_once_witness :
  ∃ m, a_final_Machine = Some m
    ∧ rtc step (start three_handlers (Handle_request a_Record)) m
    ∧ ops (trace m)
      ⊆+ Handler_ops (AMultiHandler three_handlers) (Handle_request a_Record).
Proof.
  eexists. split; [reflexivity|].
  match goal with |- ?reachable ∧ _ => assert (Hreach : reachable) end.
  { apply (run_rtc a_schedule). vm_compute. reflexivity. }
  split; [exact Hreach|].
  exact (sink_operations_at_most_once _ _ _ Hreach).
Defined.
